(** * Admission control and recycle-safe context slots

    A shallow embedding of
      - [api/contexts/wrapper.py]  (class [RecyclableContextVar]) and
      - [api/core/app/features/rate_limiting/rate_limit.py]
        (classes [RateLimit] and [RateLimitGenerator]),
    followed by the properties of the two modules.

    Conventions of the embedding.
      - A Python [int] is a [Z].  Readings of [time.time()] are [Z] as well
        (whole seconds): the comparisons of the source are kept, the
        rounding of floating point numbers is not modelled.
      - A method that mutates [self] takes the object and returns it.
      - An exception is a value of [exn]; a call returns a [result].
      - The Redis server is reliable: a command always answers, with its
        reply or with the error of the server for a key of the wrong type.
        Key expiry (the one-day TTLs) is recorded in the command log only.
      - The order in which the server lists the fields of a hash is not
        fixed by its content: the world supplies it, reply by reply. *)

From Stdlib Require Import ZArith Lia.
From stdpp Require Import base option list gmap strings pretty.

Open Scope Z_scope.

(** ** Exceptions and results *)

(** The exceptions that occur in the two files.  [ResponseError] is the
    exception of the Redis client for an error reply of the server.
    [PyException] stands for any other class derived from [Exception],
    [PyBaseException] for a class derived from [BaseException] only
    ([KeyboardInterrupt], [SystemExit], [GeneratorExit], ...). *)
Inductive exn : Type :=
| AppInvokeQuotaExceededError (description : string)
| StopIteration
| LookupError
| AttributeError (name : string)
| TypeError
| ResponseError (message : string)
| PyException (cls : string)
| PyBaseException (cls : string).

(** [isinstance(e, Exception)], the test made by [except Exception]. *)
Definition is_Exception (e : exn) : bool :=
  match e with
  | PyBaseException _ => false
  | _ => true
  end.

Inductive result (A : Type) : Type :=
| Ok (a : A)
| Raise (e : exn).
Arguments Ok {A} a.
Arguments Raise {A} e.

(** ** [contextvars.ContextVar], seen from one execution context *)

Module ContextVar.

Record t (A : Type) : Type := mk {
  default_value : option A;   (* the [default=] given at construction *)
  value : option A            (* the binding in the current context *)
}.
Arguments mk {A} _ _.
Arguments default_value {A} _.
Arguments value {A} _.

(** [ContextVar(name)] and [ContextVar(name, default=d)]. *)
Definition new {A} (d : option A) : t A := mk d None.

(** [var.get()] *)
Definition get {A} (var : t A) : result A :=
  match value var with
  | Some v => Ok v
  | None =>
      match default_value var with
      | Some d => Ok d
      | None => Raise LookupError
      end
  end.

(** [var.get(d)]: the argument wins over the constructor's default. *)
Definition get_or {A} (var : t A) (d : A) : A :=
  match value var with
  | Some v => v
  | None => d
  end.

(** [var.set(v)] *)
Definition set {A} (v : A) (var : t A) : t A := mk (default_value var) (Some v).

End ContextVar.

(** ** [RecyclableContextVar] *)

Module RecyclableContextVar.
Section Slot.
Context {T : Type}.

(** The part of an execution context that one slot reads and writes: the
    class-level counter [_thread_recycles] (declared without default), the
    slot's [_updates] (declared with [default=0]) and the wrapped
    variable. *)
Record context : Type := mk {
  _thread_recycles : ContextVar.t Z;
  _updates : ContextVar.t Z;
  _context_var : ContextVar.t T
}.

(** A context in which nothing is bound yet; [cv] is the variable handed
    to [__init__]. *)
Definition init (cv : ContextVar.t T) : context :=
  mk (ContextVar.new None) (ContextVar.new (Some 0)) cv.

(** The declarations of the class: [_thread_recycles] has no default,
    [_updates] has the default [0]. *)
Definition declared (c : context) : Prop :=
  ContextVar.default_value (_thread_recycles c) = None ∧
  ContextVar.default_value (_updates c) = Some 0.

(** [increment_thread_recycles] has run in this context. *)
Definition counter_bound (c : context) : Prop :=
  is_Some (ContextVar.value (_thread_recycles c)).

Definition with_thread_recycles (r : Z) (c : context) : context :=
  mk (ContextVar.set r (_thread_recycles c)) (_updates c) (_context_var c).

Definition with_updates (u : Z) (c : context) : context :=
  mk (_thread_recycles c) (ContextVar.set u (_updates c)) (_context_var c).

(** [self._thread_recycles.get(0)] *)
Definition thread_recycles (c : context) : Z :=
  ContextVar.get_or (_thread_recycles c) 0.

(** [self._updates.get()]; the variable has a default, so the read never
    fails. *)
Definition self_updates (c : context) : Z :=
  match ContextVar.get (_updates c) with
  | Ok u => u
  | Raise _ => 0
  end.

Definition increment_thread_recycles (c : context) : context :=
  match ContextVar.get (_thread_recycles c) with
  | Ok recycles => with_thread_recycles (recycles + 1) c
  | Raise _ => with_thread_recycles 0 c
  end.

(** The two lines that open both [get] and [set]. *)
Definition catch_up (c : context) : context :=
  if thread_recycles c >? self_updates c
  then with_updates (thread_recycles c) c
  else c.

(** [get(default)]; [None] is the hidden default of the signature. *)
Definition get (dflt : option T) (c : context) : result T * context :=
  let thread_recycles := thread_recycles c in
  let self_updates := self_updates c in
  let c' := catch_up c in
  if thread_recycles <? self_updates
  then (ContextVar.get (_context_var c'), c')
  else
    match dflt with
    | None => (Raise LookupError, c')
    | Some d => (Ok d, c')
    end.

Definition set (v : T) (c : context) : context :=
  let c1 := catch_up c in
  let c2 :=
    if self_updates c1 =? thread_recycles c1
    then with_updates (self_updates c1 + 1) c1
    else c1 in
  mk (_thread_recycles c2) (_updates c2) (ContextVar.set v (_context_var c2)).

(** Sequences of calls on one slot. *)
Inductive op : Type :=
| OpGet (dflt : option T)
| OpSet (v : T)
| OpIncrement.

Definition step (o : op) (c : context) : context :=
  match o with
  | OpGet d => snd (get d c)
  | OpSet v => set v c
  | OpIncrement => increment_thread_recycles c
  end.

Definition run (ops : list op) (c : context) : context :=
  fold_left (fun c o => step o c) ops c.

(** Ghost reading of a call sequence, as the specification words it: has a [set]
    occurred since the last call of [increment_thread_recycles]? *)
Fixpoint set_since_last_increment (ops : list op) (armed : bool) : bool :=
  match ops with
  | [] => armed
  | OpSet _ :: ops => set_since_last_increment ops true
  | OpGet _ :: ops => set_since_last_increment ops armed
  | OpIncrement :: ops => set_since_last_increment ops false
  end.

(** The same reading, counting only the calls that raise the counter: the
    first call in a context binds the counter to [0], the value that
    [get] and [set] already read from an unbound counter.  [bound] says
    whether the counter is bound. *)
Fixpoint set_since_last_advance (ops : list op) (bound armed : bool) : bool :=
  match ops with
  | [] => armed
  | OpSet _ :: ops => set_since_last_advance ops bound true
  | OpGet _ :: ops => set_since_last_advance ops bound armed
  | OpIncrement :: ops => set_since_last_advance ops true (if bound then false else armed)
  end.

(** The value of the last [set] of a call sequence, [v] when there is
    none. *)
Fixpoint last_set (ops : list op) (v : option T) : option T :=
  match ops with
  | [] => v
  | OpSet x :: ops => last_set ops (Some x)
  | _ :: ops => last_set ops v
  end.

(** The ghost flags [bound] and [armed] of [set_since_last_advance] agree
    with a context. *)
Definition flags_agree (c : context) (bound armed : bool) : Prop :=
  bound = bool_decide (counter_bound c) ∧
  armed = (self_updates c =? thread_recycles c + 1).

Definition is_get (o : op) : Prop :=
  match o with
  | OpGet _ => True
  | _ => False
  end.

Definition is_increment (o : op) : Prop :=
  match o with
  | OpIncrement => True
  | _ => False
  end.

(** Two contexts that a view cannot tell apart: both stale, or both ahead
    of the counter with the same value in the wrapped variable. *)
Definition alike (c c' : context) : Prop :=
  (self_updates c ≤ thread_recycles c ∧ self_updates c' ≤ thread_recycles c') ∨
  (thread_recycles c < self_updates c ∧ thread_recycles c' < self_updates c' ∧
   ContextVar.get (_context_var c) = ContextVar.get (_context_var c')).

(** What a worker keeps between requests: the declarations, a slot at most
    one ahead, and a counter that is bound unless the slot is stale. *)
Definition between_requests (c : context) : Prop :=
  declared c ∧
  self_updates c ≤ thread_recycles c + 1 ∧
  (counter_bound c ∨ self_updates c ≤ thread_recycles c).

(** What the [get] calls of a sequence return, in order. *)
Fixpoint answers (ops : list op) (c : context) : list (result T) :=
  match ops with
  | [] => []
  | OpGet d :: ops => fst (get d c) :: answers ops (snd (get d c))
  | o :: ops => answers ops (step o c)
  end.

End Slot.
Arguments context : clear implicits.
Arguments op : clear implicits.

(** Two slots in one execution context.  Each instance of the class has
    its own [_updates] and its own wrapped variable; [_thread_recycles]
    belongs to the class and is shared. *)
Record two_slots (A B : Type) : Type := mk_two_slots {
  shared_recycles : ContextVar.t Z;
  first_updates : ContextVar.t Z;
  first_var : ContextVar.t A;
  second_updates : ContextVar.t Z;
  second_var : ContextVar.t B
}.
Arguments mk_two_slots {A B} _ _ _ _ _.
Arguments shared_recycles {A B} _.
Arguments first_updates {A B} _.
Arguments first_var {A B} _.
Arguments second_updates {A B} _.
Arguments second_var {A B} _.

(** The context as the first slot sees it, and as the second does. *)
Definition first_view {A B} (p : two_slots A B) : context A :=
  mk (shared_recycles p) (first_updates p) (first_var p).

Definition second_view {A B} (p : two_slots A B) : context B :=
  mk (shared_recycles p) (second_updates p) (second_var p).

(** A method of the first slot run in the shared context. *)
Definition on_first {A B} (f : context A → context A) (p : two_slots A B) : two_slots A B :=
  let c := f (first_view p) in
  mk_two_slots (_thread_recycles c) (_updates c) (_context_var c)
    (second_updates p) (second_var p).

End RecyclableContextVar.

(** ** The request hook of [app_factory] *)

(** [create_flask_app_with_configs] registers a [before_request] function
    that calls [increment_thread_recycles]; the framework runs it before
    the view of every request.  A view is the sequence of calls it makes
    on a slot. *)
Module app_factory.

Definition before_request {T} (c : RecyclableContextVar.context T)
  : RecyclableContextVar.context T :=
  RecyclableContextVar.increment_thread_recycles c.

(** One request on a worker: the hook, then the view. *)
Definition serve_request {T} (view : list (RecyclableContextVar.op T))
    (c : RecyclableContextVar.context T) : RecyclableContextVar.context T :=
  RecyclableContextVar.run view (before_request c).

(** The requests a worker serves one after the other in one context. *)
Definition serve {T} (views : list (list (RecyclableContextVar.op T)))
    (c : RecyclableContextVar.context T) : RecyclableContextVar.context T :=
  fold_left (fun c view => serve_request view c) views c.

End app_factory.

(** ** The world outside the process *)

(** The commands sent to [redis_client], in the order of the source. *)
Inductive redis_cmd : Type :=
| EXISTS (key : string)
| SETEX (key : string) (ttl : Z) (v : Z)
| GET (key : string)
| EXPIRE (key : string) (ttl : Z)
| HGETALL (key : string)
| HDEL (key : string) (fields : list string)
| HLEN (key : string)
| HSET (key field : string) (v : Z).

(** What an observer of a run can see: the Redis commands, the calls of
    [RateLimit.exit] (a ghost event, logged on entry of the method) and
    the calls that reach the wrapped generator. *)
Inductive event : Type :=
| Redis (c : redis_cmd)
| ExitCall (request_id : string)
| GenNext
| GenClose.

(** A key holds an integer or a hash from a request id to the time it was
    issued.  The limiter uses one family of keys for each kind and the two
    never meet (the names end differently), so the model keeps one map per
    kind.  A hash without fields does not exist.  The commands on hashes
    are modelled for keys that hold a hash or nothing: the limiter writes
    its hash with [HSET] alone, and no string under that key. *)
Record redis : Type := mk_redis {
  strings : gmap string Z;
  hashes : gmap string (gmap string Z)
}.

(** [clock n] is the n-th reading of [time.time()], [uuid4 n] the n-th
    result of [str(uuid.uuid4())].  [reply_order n h] is the order in which
    the n-th reply to [HGETALL] lists the fields of the hash [h]; the
    dictionary that the client builds from the reply is walked in that
    order. *)
Record world : Type := mk_world {
  store : redis;
  clock : nat → Z;
  tick : nat;
  uuid4 : nat → string;
  drawn : nat;
  trace : list event;
  reply_order : nat → gmap string Z → list (string * Z);
  replies : nat
}.

(** The next reply to [HGETALL] lists every field of the hash once. *)
Definition lists_fields (h : gmap string Z) (w : world) : Prop :=
  reply_order w (replies w) h ≡ₚ map_to_list h.

Definition with_store (r : redis) (w : world) : world :=
  mk_world r (clock w) (tick w) (uuid4 w) (drawn w) (trace w)
    (reply_order w) (replies w).

Definition emit (e : event) (w : world) : world :=
  mk_world (store w) (clock w) (tick w) (uuid4 w) (drawn w) (trace w ++ [e])
    (reply_order w) (replies w).

(** A world with an empty store in which nothing has happened yet.  Its
    server lists the fields of a hash in the order of [map_to_list]. *)
Definition empty_world (clock : nat → Z) (uuid4 : nat → string) : world :=
  mk_world (mk_redis ∅ ∅) clock 0 uuid4 0 [] (λ _, map_to_list) 0.

(** [time.time()] *)
Definition time_time (w : world) : Z * world :=
  (clock w (tick w),
   mk_world (store w) (clock w) (S (tick w)) (uuid4 w) (drawn w) (trace w)
     (reply_order w) (replies w)).

(** [timedelta(days=1)], in seconds. *)
Definition one_day : Z := 86400.

Module redis_client.

Definition hash_at (key : string) (r : redis) : gmap string Z :=
  from_option id ∅ (hashes r !! key).

Definition put_hash (key : string) (h : gmap string Z) (r : redis) : redis :=
  if decide (h = ∅)
  then mk_redis (strings r) (delete key (hashes r))
  else mk_redis (strings r) (<[key := h]> (hashes r)).

Definition hdel_fields (fields : list string) (h : gmap string Z) : gmap string Z :=
  filter (λ p, p.1 ∉ fields) h.

Definition key_exists (key : string) (r : redis) : bool :=
  bool_decide (is_Some (strings r !! key)) || bool_decide (is_Some (hashes r !! key)).

Definition exists_ (key : string) (w : world) : bool * world :=
  (key_exists key (store w), emit (Redis (EXISTS key)) w).

(** [SETEX] replaces what the key holds, whatever its type. *)
Definition setex (key : string) (ttl : Z) (v : Z) (w : world) : world :=
  emit (Redis (SETEX key ttl v))
    (with_store (mk_redis (<[key := v]> (strings (store w)))
                   (delete key (hashes (store w)))) w).

(** [GET]: the value, [None] for a key that does not exist, and the error
    of the server ([WRONGTYPE]) for a key that holds a hash. *)
Definition get (key : string) (w : world) : result (option Z) * world :=
  (match hashes (store w) !! key with
   | Some _ => Raise (ResponseError "WRONGTYPE")
   | None => Ok (strings (store w) !! key)
   end,
   emit (Redis (GET key)) w).

Definition expire (key : string) (ttl : Z) (w : world) : world :=
  emit (Redis (EXPIRE key ttl)) w.

(** The reply is a dictionary; [request_details.items()] walks it in
    the order in which the server listed the fields.  A server lists every
    field of the hash once ([lists_fields]). *)
Definition hgetall (key : string) (w : world) : list (string * Z) * world :=
  (reply_order w (replies w) (hash_at key (store w)),
   mk_world (store w) (clock w) (tick w) (uuid4 w) (drawn w)
     (trace w ++ [Redis (HGETALL key)]) (reply_order w) (S (replies w))).

Definition hdel (key : string) (fields : list string) (w : world) : world :=
  emit (Redis (HDEL key fields))
    (with_store (put_hash key (hdel_fields fields (hash_at key (store w))) (store w)) w).

Definition hlen (key : string) (w : world) : Z * world :=
  (Z.of_nat (size (hash_at key (store w))), emit (Redis (HLEN key)) w).

Definition hset (key field : string) (v : Z) (w : world) : world :=
  emit (Redis (HSET key field v))
    (with_store (put_hash key (<[field := v]> (hash_at key (store w))) (store w)) w).

End redis_client.

(** ** [RateLimit] *)

Module RateLimit.

Definition _MAX_ACTIVE_REQUESTS_KEY (client_id : string) : string :=
  "dify:rate_limit:" +:+ client_id +:+ ":max_active_requests".
Definition _ACTIVE_REQUESTS_KEY (client_id : string) : string :=
  "dify:rate_limit:" +:+ client_id +:+ ":active_requests".
Definition _UNLIMITED_REQUEST_ID : string := "unlimited_request_id".
Definition _REQUEST_MAX_ALIVE_TIME : Z := 10 * 60.
Definition _ACTIVE_REQUESTS_COUNT_FLUSH_INTERVAL : Z := 5 * 60.

(** A value of [last_recalculate_time]: [float("-inf")] or a reading of
    the clock. *)
Inductive pytime : Type :=
| neg_inf
| seconds (t : Z).

(** The attributes that [__init__] sets together, after the line
    [self.initialized = True]. *)
Record attributes : Type := mk_attributes {
  client_id : string;
  active_requests_key : string;
  max_active_requests_key : string;
  last_recalculate_time : pytime
}.

(** An instance.  [attrs = None] is an object on which [__init__] has
    returned early every time so far: [hasattr(self, "initialized")] is
    false and reading one of the attributes raises [AttributeError]. *)
Record t : Type := mk {
  max_active_requests : Z;
  attrs : option attributes
}.

Definition with_last_recalculate_time (now : Z) (a : attributes) : attributes :=
  mk_attributes (client_id a) (active_requests_key a) (max_active_requests_key a)
    (seconds now).

Definition disabled (self : t) : bool := max_active_requests self <=? 0.

(** [now - since > limit] *)
Definition elapsed_more_than (now : Z) (since : pytime) (limit : Z) : bool :=
  match since with
  | neg_inf => true
  | seconds t => now - t >? limit
  end.

(** The list comprehension of [flush_cache]: the clock is read once for
    every field of the hash. *)
Fixpoint timeout_requests (request_details : list (string * Z)) (w : world)
  : list string * world :=
  match request_details with
  | [] => ([], w)
  | (k, v) :: rest =>
      let '(now, w) := time_time w in
      let '(ks, w) := timeout_requests rest w in
      (if now - v >? _REQUEST_MAX_ALIVE_TIME then k :: ks else ks, w)
  end.

(** The ids that the comprehension collects, as a function of the clock
    and of the index [n] of the first reading. *)
Fixpoint timed_out_keys (clk : nat → Z) (n : nat) (request_details : list (string * Z))
  : list string :=
  match request_details with
  | [] => []
  | (k, v) :: rest =>
      if clk n - v >? _REQUEST_MAX_ALIVE_TIME
      then k :: timed_out_keys clk (S n) rest
      else timed_out_keys clk (S n) rest
  end.

(** The second half of [flush_cache]: the in-transit request list. *)
Definition flush_active_requests (a : attributes) (w : world) : world :=
  let '(present, w) := redis_client.exists_ (active_requests_key a) w in
  if negb present then w
  else
    let '(request_details, w) := redis_client.hgetall (active_requests_key a) w in
    let w := redis_client.expire (active_requests_key a) one_day w in
    let '(timed_out, w) := timeout_requests request_details w in
    match timed_out with
    | [] => w
    | _ => redis_client.hdel (active_requests_key a) timed_out w
    end.

Definition flush_cache (self : t) (use_local_value : bool) (w : world)
  : result unit * t * world :=
  if disabled self then (Ok tt, self, w)
  else
    let '(now, w) := time_time w in
    match attrs self with
    | None => (Raise (AttributeError "max_active_requests_key"), self, w)
    | Some a =>
        let a := with_last_recalculate_time now a in
        let self := mk (max_active_requests self) (Some a) in
        (* flush max active requests *)
        let '(use_local, w) :=
          if use_local_value then (true, w)
          else
            let '(present, w) := redis_client.exists_ (max_active_requests_key a) w in
            (negb present, w) in
        if use_local
        then
          let w := redis_client.setex (max_active_requests_key a) one_day
                     (max_active_requests self) w in
          (Ok tt, self, flush_active_requests a w)
        else
          let '(stored, w) := redis_client.get (max_active_requests_key a) w in
          match stored with
          | Raise e => (Raise e, self, w)
          | Ok None => (Raise (AttributeError "decode"), self, w)
          | Ok (Some v) =>
              let self := mk v (Some a) in
              let w := redis_client.expire (max_active_requests_key a) one_day w in
              (Ok tt, self, flush_active_requests a w)
          end
    end.

(** [str(uuid.uuid4())] *)
Definition gen_request_key (w : world) : string * world :=
  (uuid4 w (drawn w),
   mk_world (store w) (clock w) (tick w) (uuid4 w) (S (drawn w)) (trace w)
     (reply_order w) (replies w)).

(** [not request_id] *)
Definition falsy (request_id : option string) : bool :=
  match request_id with
  | None => true
  | Some s => bool_decide (s = "")
  end.

Definition too_many_requests (client_id : string) (limit : Z) : string :=
  "Too many requests. Please try again later. The current maximum concurrent requests allowed "
  +:+ "for " +:+ client_id +:+ " is " +:+ pretty limit +:+ ".".

Definition enter (self : t) (request_id : option string) (w : world)
  : result string * t * world :=
  if disabled self then (Ok _UNLIMITED_REQUEST_ID, self, w)
  else
    let '(now, w) := time_time w in
    match attrs self with
    | None => (Raise (AttributeError "last_recalculate_time"), self, w)
    | Some a0 =>
        let '(flushed, self, w) :=
          if elapsed_more_than now (last_recalculate_time a0)
               _ACTIVE_REQUESTS_COUNT_FLUSH_INTERVAL
          then flush_cache self false w
          else (Ok tt, self, w) in
        match flushed, attrs self with
        | Raise e, _ => (Raise e, self, w)
        | Ok _, None => (Raise (AttributeError "active_requests_key"), self, w)
        | Ok _, Some a =>
            let '(request_id, w) :=
              if falsy request_id then gen_request_key w
              else (from_option id "" request_id, w) in
            let '(active_requests_count, w) :=
              redis_client.hlen (active_requests_key a) w in
            if active_requests_count >=? max_active_requests self
            then
              (Raise (AppInvokeQuotaExceededError
                        (too_many_requests (client_id a) (max_active_requests self))),
               self, w)
            else
              let '(now, w) := time_time w in
              let w := redis_client.hset (active_requests_key a) request_id now w in
              (Ok request_id, self, w)
        end
    end.

Definition exit (self : t) (request_id : string) (w : world) : result unit * world :=
  let w := emit (ExitCall request_id) w in
  if bool_decide (request_id = _UNLIMITED_REQUEST_ID) then (Ok tt, w)
  else
    match attrs self with
    | None => (Raise (AttributeError "active_requests_key"), w)
    | Some a => (Ok tt, redis_client.hdel (active_requests_key a) [request_id] w)
    end.

Definition init (self : t) (client_id : string) (max_active_requests : Z) (w : world)
  : result unit * t * world :=
  let self := mk max_active_requests (attrs self) in
  (* must be called after max_active_requests is set *)
  if disabled self then (Ok tt, self, w)
  else
    match attrs self with
    | Some _ => (Ok tt, self, w)
    | None =>
        let a := mk_attributes client_id (_ACTIVE_REQUESTS_KEY client_id)
                   (_MAX_ACTIVE_REQUESTS_KEY client_id) neg_inf in
        flush_cache (mk max_active_requests (Some a)) true w
    end.

(** The call [RateLimit(client_id, max_active_requests)]: [__new__] looks
    the client up in [_instance_dict] and creates the instance when it is
    missing, then [__init__] runs on the instance, which stays in the
    dictionary. *)
Definition construct (client_id : string) (max_active_requests : Z)
    (_instance_dict : gmap string t) (w : world)
  : result unit * t * gmap string t * world :=
  let instance :=
    match _instance_dict !! client_id with
    | Some i => i
    | None => mk 0 None
    end in
  let '(r, instance, w) := init instance client_id max_active_requests w in
  (r, instance, <[client_id := instance]> _instance_dict, w).

End RateLimit.

(** What the constructor and the methods keep: an enabled limiter has its
    attributes. *)
Definition usable (self : RateLimit.t) : Prop :=
  RateLimit.disabled self = false → is_Some (RateLimit.attrs self).

(** The attributes as [__init__] formats them for a client. *)
Definition keys_of_client (a : RateLimit.attributes) : Prop :=
  RateLimit.active_requests_key a = RateLimit._ACTIVE_REQUESTS_KEY (RateLimit.client_id a) ∧
  RateLimit.max_active_requests_key a
  = RateLimit._MAX_ACTIVE_REQUESTS_KEY (RateLimit.client_id a).

(** The count and the limit that the check of [enter] compares when the
    call is made in world [w]: those left by the flush when one is due.
    The flush reads the clock once more before the scan, and then once for
    every field in the order of the reply. *)
Definition flush_due (a : RateLimit.attributes) (w : world) : bool :=
  RateLimit.elapsed_more_than (clock w (tick w)) (RateLimit.last_recalculate_time a)
    RateLimit._ACTIVE_REQUESTS_COUNT_FLUSH_INTERVAL.

Definition hash_at_check (a : RateLimit.attributes) (w : world) : gmap string Z :=
  let h := redis_client.hash_at (RateLimit.active_requests_key a) (store w) in
  if flush_due a w
  then redis_client.hdel_fields
         (RateLimit.timed_out_keys (clock w) (S (S (tick w)))
            (reply_order w (replies w) h)) h
  else h.

Definition count_at_check (a : RateLimit.attributes) (w : world) : Z :=
  Z.of_nat (size (hash_at_check a w)).

Definition limit_at_check (self : RateLimit.t) (a : RateLimit.attributes) (w : world) : Z :=
  if flush_due a w
  then from_option id (RateLimit.max_active_requests self)
         (strings (store w) !! RateLimit.max_active_requests_key a)
  else RateLimit.max_active_requests self.

(** The keys of a client are the same in two worlds. *)
Definition untouched_for (client : string) (w w' : world) : Prop :=
  redis_client.hash_at (RateLimit._ACTIVE_REQUESTS_KEY client) (store w')
  = redis_client.hash_at (RateLimit._ACTIVE_REQUESTS_KEY client) (store w) ∧
  strings (store w') !! RateLimit._MAX_ACTIVE_REQUESTS_KEY client
  = strings (store w) !! RateLimit._MAX_ACTIVE_REQUESTS_KEY client.

(** ** Generators *)

(** A generator object, as far as its consumer can tell: the values it will
    yield and the exception it raises on the way, if any.  A generator that
    has raised, or that has been closed, is finished. *)
Module Generator.

Inductive item : Type :=
| Yield (v : string)
| Throw (e : exn).

Record t : Type := mk {
  body : list item;
  has_close : bool      (* [hasattr(generator, "close")] *)
}.

(** [next(generator)] *)
Definition next (g : t) (w : world) : result string * t * world :=
  let w := emit GenNext w in
  match body g with
  | [] => (Raise StopIteration, g, w)
  | Yield v :: rest => (Ok v, mk rest (has_close g), w)
  | Throw e :: _ => (Raise e, mk [] (has_close g), w)
  end.

(** [generator.close()] *)
Definition close (g : t) (w : world) : t * world :=
  (mk [] (has_close g), emit GenClose w).

End Generator.

(** ** [RateLimitGenerator] *)

Module RateLimitGenerator.

(** [rate_limit] is the limiter the wrapper was built on.  The wrapper
    only calls [exit] on it, which does not change it and reads nothing but
    the key that [__init__] sets once.  [generator] may be [None]. *)
Record t : Type := mk {
  rate_limit : RateLimit.t;
  generator : option Generator.t;
  request_id : string;
  closed : bool
}.

(** [__init__] *)
Definition init (rate_limit : RateLimit.t) (generator : option Generator.t)
    (request_id : string) : t :=
  mk rate_limit generator request_id false.

Definition close (self : t) (w : world) : result unit * t * world :=
  if closed self then (Ok tt, self, w)
  else
    let self := mk (rate_limit self) (generator self) (request_id self) true in
    let '(released, w) := RateLimit.exit (rate_limit self) (request_id self) w in
    match released with
    | Raise e => (Raise e, self, w)
    | Ok _ =>
        match generator self with
        | Some g =>
            if Generator.has_close g
            then
              let '(g, w) := Generator.close g w in
              (Ok tt, mk (rate_limit self) (Some g) (request_id self) true, w)
            else (Ok tt, self, w)
        | None => (Ok tt, self, w)
        end
    end.

(** [__next__].  The handler catches [Exception] only; an exception
    raised by [close] inside the handler replaces the one being
    handled. *)
Definition next (self : t) (w : world) : result string * t * world :=
  if closed self then (Raise StopIteration, self, w)
  else
    let '(produced, g, w) :=
      match generator self with
      | Some g => let '(r, g, w) := Generator.next g w in (r, Some g, w)
      | None => (Raise TypeError, None, w)
      end in
    let self := mk (rate_limit self) g (request_id self) (closed self) in
    match produced with
    | Ok v => (Ok v, self, w)
    | Raise e =>
        if is_Exception e
        then
          let '(cleaned, self, w) := close self w in
          match cleaned with
          | Ok _ => (Raise e, self, w)
          | Raise e' => (Raise e', self, w)
          end
        else (Raise e, self, w)
    end.

(** Calls made by a consumer, and the run of a sequence of them. *)
Inductive call : Type :=
| Next
| Close.

Definition step (c : call) (self : t) (w : world) : t * world :=
  match c with
  | Next => let '(_, self, w) := next self w in (self, w)
  | Close => let '(_, self, w) := close self w in (self, w)
  end.

Fixpoint run (calls : list call) (self : t) (w : world) : t * world :=
  match calls with
  | [] => (self, w)
  | c :: calls => let '(self, w) := step c self w in run calls self w
  end.

(** [for item in self: ...], the loop of a consumer, bounded by [fuel]
    rounds: the items received and the exception that ended the loop
    ([StopIteration] ends it silently in Python). *)
Fixpoint iterate (fuel : nat) (self : t) (w : world)
  : list string * option exn * t * world :=
  match fuel with
  | O => ([], None, self, w)
  | S fuel =>
      let '(r, self, w) := next self w in
      match r with
      | Raise e => ([], Some e, self, w)
      | Ok v =>
          let '(vs, e, self, w) := iterate fuel self w in
          (v :: vs, e, self, w)
      end
  end.

End RateLimitGenerator.

(** ** [RateLimit.generate] *)

(** The argument of [generate]: a mapping (a blocking response) or a
    generator (a streamed one). *)
Inductive response : Type :=
| Blocking (m : gmap string string)
| Streaming (g : option Generator.t).

(** What [generate] returns: the mapping itself or a new wrapper. *)
Inductive generated : Type :=
| Unwrapped (m : gmap string string)
| Wrapped (g : RateLimitGenerator.t).

Definition generate (self : RateLimit.t) (generator : response) (request_id : string)
  : generated :=
  match generator with
  | Blocking m => Unwrapped m
  | Streaming g => Wrapped (RateLimitGenerator.init self g request_id)
  end.

(** A caller that reads the whole result: the keys of a mapping, or the
    items of a wrapper. *)
Definition consume (fuel : nat) (r : generated) (w : world) : list string * world :=
  match r with
  | Unwrapped m => ((map_to_list m).*1, w)
  | Wrapped g =>
      let '(vs, _, _, w) := RateLimitGenerator.iterate fuel g w in (vs, w)
  end.

(** The number of calls of [RateLimit.exit] in a log. *)
Definition is_exit_call (e : event) : bool :=
  match e with
  | ExitCall _ => true
  | _ => false
  end.

Definition exit_calls (t : list event) : nat := length (filter is_exit_call t).

Definition is_redis (e : event) : bool :=
  match e with
  | Redis _ => true
  | _ => false
  end.

(** ** Several controllers on one store *)

(** Controllers in different processes share nothing but the store, and the
    server runs one command at a time.  A call of [enter] is cut where the
    source leaves the server between the read of the count ([hlen], line
    78) and the write of the new field ([hset], line 84); a schedule says
    which controller moves next. *)
Module Interleaving.

Inductive phase : Type :=
| Calling (request_id : option string)   (* [enter] has been called *)
| Checked (request_id : string)          (* the check has passed *)
| Returned (r : result string).          (* [enter] has returned or raised *)

Record controller : Type := mk {
  self : RateLimit.t;
  at_phase : phase
}.

(** Lines 71 to 83 of [enter]. *)
Definition check (self : RateLimit.t) (request_id : option string) (w : world)
  : phase * RateLimit.t * world :=
  if RateLimit.disabled self then (Returned (Ok RateLimit._UNLIMITED_REQUEST_ID), self, w)
  else
    let '(now, w) := time_time w in
    match RateLimit.attrs self with
    | None => (Returned (Raise (AttributeError "last_recalculate_time")), self, w)
    | Some a0 =>
        let '(flushed, self, w) :=
          if RateLimit.elapsed_more_than now (RateLimit.last_recalculate_time a0)
               RateLimit._ACTIVE_REQUESTS_COUNT_FLUSH_INTERVAL
          then RateLimit.flush_cache self false w
          else (Ok tt, self, w) in
        match flushed, RateLimit.attrs self with
        | Raise e, _ => (Returned (Raise e), self, w)
        | Ok _, None => (Returned (Raise (AttributeError "active_requests_key")), self, w)
        | Ok _, Some a =>
            let '(request_id, w) :=
              if RateLimit.falsy request_id then RateLimit.gen_request_key w
              else (from_option id "" request_id, w) in
            let '(active_requests_count, w) :=
              redis_client.hlen (RateLimit.active_requests_key a) w in
            if active_requests_count >=? RateLimit.max_active_requests self
            then
              (Returned (Raise (AppInvokeQuotaExceededError
                 (RateLimit.too_many_requests (RateLimit.client_id a)
                    (RateLimit.max_active_requests self)))),
               self, w)
            else (Checked request_id, self, w)
        end
    end.

(** Lines 84 and 85 of [enter]. *)
Definition register (self : RateLimit.t) (request_id : string) (w : world)
  : phase * RateLimit.t * world :=
  match RateLimit.attrs self with
  | None => (Returned (Raise (AttributeError "active_requests_key")), self, w)
  | Some a =>
      let '(now, w) := time_time w in
      let w := redis_client.hset (RateLimit.active_requests_key a) request_id now w in
      (Returned (Ok request_id), self, w)
  end.

Definition step (c : controller) (w : world) : controller * world :=
  match at_phase c with
  | Calling request_id =>
      let '(p, s, w) := check (self c) request_id w in (mk s p, w)
  | Checked request_id =>
      let '(p, s, w) := register (self c) request_id w in (mk s p, w)
  | Returned _ => (c, w)
  end.

Fixpoint run (schedule : list nat) (cs : list controller) (w : world)
  : list controller * world :=
  match schedule with
  | [] => (cs, w)
  | i :: schedule =>
      match cs !! i with
      | Some c => let '(c, w) := step c w in run schedule (<[i := c]> cs) w
      | None => run schedule cs w
      end
  end.

End Interleaving.

(** The id under which [enter] registers a request: the one supplied, or
    the next one drawn when none or an empty one is supplied. *)
Definition chosen_id (request_id : option string) (w : world) : string :=
  if RateLimit.falsy request_id then uuid4 w (drawn w)
  else from_option id "" request_id.

(** ** Concrete inputs *)

Module Scenario.

(** The server of the worlds below lists the fields of a hash in the order
    of [map_to_list], unless another order is given with [answering]. *)

(** Ids drawn in order: ["uuid-0"], ["uuid-1"], ... *)
Definition ids (n : nat) : string := "uuid-" +:+ pretty (Z.of_nat n).

(** The attributes of the limiter of client ["appA"] whose last flush was
    at [t]. *)
Definition appA (t : Z) : RateLimit.attributes :=
  RateLimit.mk_attributes "appA" (RateLimit._ACTIVE_REQUESTS_KEY "appA")
    (RateLimit._MAX_ACTIVE_REQUESTS_KEY "appA") (RateLimit.seconds t).

(** The limiter that [RateLimit("appA", limit)] builds at time [0] in a new
    process; with [limit <= 0], the same object after a later call
    [RateLimit("appA", limit)] has lowered its limit. *)
Definition limiter (limit : Z) : RateLimit.t := RateLimit.mk limit (Some (appA 0)).

(** A world in which the hash of ["appA"] is [h] (not empty), the clock is
    [clk] and has been read [n] times. *)
Definition world_with (h : gmap string Z) (clk : nat → Z) (n : nat) : world :=
  mk_world (mk_redis ∅ {[ RateLimit._ACTIVE_REQUESTS_KEY "appA" := h ]}) clk n ids 0 []
    (λ _, map_to_list) 0.

(** The world after [RateLimit("appA", 1)] in a new process. *)
Definition after_construct (clk : nat → Z) : world :=
  mk_world (mk_redis {[ RateLimit._MAX_ACTIVE_REQUESTS_KEY "appA" := 1 ]} ∅)
    clk 1 ids 0
    [Redis (SETEX (RateLimit._MAX_ACTIVE_REQUESTS_KEY "appA") one_day 1);
     Redis (EXISTS (RateLimit._ACTIVE_REQUESTS_KEY "appA"))]
    (λ _, map_to_list) 0.

(** The world after [RateLimit("appA", 1)] and [enter("r1")]: the hash
    holds ["r1"] with the third reading of the clock. *)
Definition after_first_ticket (clk : nat → Z) : world :=
  mk_world
    (mk_redis {[ RateLimit._MAX_ACTIVE_REQUESTS_KEY "appA" := 1 ]}
       {[ RateLimit._ACTIVE_REQUESTS_KEY "appA" := {[ "r1" := clk 2%nat ]} ]})
    clk 3 ids 0
    [Redis (SETEX (RateLimit._MAX_ACTIVE_REQUESTS_KEY "appA") one_day 1);
     Redis (EXISTS (RateLimit._ACTIVE_REQUESTS_KEY "appA"));
     Redis (HLEN (RateLimit._ACTIVE_REQUESTS_KEY "appA"));
     Redis (HSET (RateLimit._ACTIVE_REQUESTS_KEY "appA") "r1" (clk 2%nat))]
    (λ _, map_to_list) 0.


(** A clock that reads [0], [1], [2] and then, a long while later, [1000]
    on every reading. *)
Definition late (n : nat) : Z := if (n <? 3)%nat then Z.of_nat n else 1000.

(** Tickets issued at [340] and at [940]: eleven minutes and one minute
    before [1000]. *)
Definition two_tickets : gmap string Z := <[ "old" := 340 ]> {[ "new" := 940 ]}.

(** Tickets issued at [900] and at [400], and a clock that moves by one
    second from reading to reading: [t0], [t0 + 1], [t0 + 2], ...  The
    second ticket is six hundred seconds old at the reading [1000] and
    older at the next one. *)
Definition boundary_tickets : gmap string Z := <[ "a" := 900 ]> {[ "b" := 400 ]}.

Definition moving (t0 : Z) (n : nat) : Z := t0 + Z.of_nat n.

(** The world [w] with a server that lists the fields of the hash as
    [reply]. *)
Definition answering (reply : list (string * Z)) (w : world) : world :=
  mk_world (store w) (clock w) (tick w) (uuid4 w) (drawn w) (trace w)
    (λ _ _, reply) (replies w).

(** A generator that yields three items, and wrappers around generators
    on the limiter of ["appA"]. *)
Definition three_items : Generator.t :=
  Generator.mk [Generator.Yield "a"; Generator.Yield "b"; Generator.Yield "c"] true.

Definition wrap (limiter : RateLimit.t) (body : list Generator.item) : RateLimitGenerator.t :=
  RateLimitGenerator.init limiter (Some (Generator.mk body true)) "r1".

End Scenario.

(** * Properties *)

(** ** The recycle-safe slot *)

Section SlotFacts.
Context {T : Type}.
Import RecyclableContextVar.
Implicit Types (c : context T) (ops : list (op T)).

Local Ltac slot_simpl := cbn -[Z.ltb Z.eqb Z.gtb Z.add] in *.

Local Ltac slot_unfold :=
  unfold step, set, get, catch_up, increment_thread_recycles, with_updates,
    with_thread_recycles, self_updates, thread_recycles, declared, counter_bound,
    ContextVar.get, ContextVar.get_or, ContextVar.set in *; slot_simpl;
  rewrite ?Z.gtb_ltb in *.

Local Ltac slot_cases :=
  repeat match goal with
    | |- context [?a <? ?b] => destruct (Z.ltb_spec0 a b); slot_simpl
    | |- context [?a =? ?b] => destruct (Z.eqb_spec a b); slot_simpl
    | H : context [?a <? ?b] |- _ => destruct (Z.ltb_spec0 a b); slot_simpl
    | H : context [?a =? ?b] |- _ => destruct (Z.eqb_spec a b); slot_simpl
    end.

Local Ltac slot_solve :=
  slot_unfold; slot_cases; simplify_eq; repeat split; auto; try lia.

Lemma declared_init (cv : ContextVar.t T) : declared (init cv).
Proof. by split. Qed.

Lemma declared_step (o : op T) c : declared c → declared (step o c).
Proof.
  destruct c as [[dr vr] [du vu] cv]; intros [??]; simpl in *; subst.
  destruct o as [[d|]|v|]; destruct vr, vu; slot_solve.
Qed.

Lemma declared_run ops c : declared c → declared (run ops c).
Proof.
  revert c; induction ops as [|o ops IH]; intros c Hc; [done|].
  apply IH, declared_step, Hc.
Qed.

(** One step keeps the slot at most one ahead of the counter. *)
Lemma ahead_step (o : op T) c :
  declared c →
  self_updates c ≤ thread_recycles c + 1 →
  self_updates (step o c) ≤ thread_recycles (step o c) + 1.
Proof.
  destruct c as [[dr vr] [du vu] cv]; intros [??] Hle; simpl in *; subst.
  destruct o as [[d|]|v|]; destruct vr, vu; slot_solve.
Qed.

Lemma ahead_run ops c :
  declared c →
  self_updates c ≤ thread_recycles c + 1 →
  self_updates (run ops c) ≤ thread_recycles (run ops c) + 1.
Proof.
  revert c; induction ops as [|o ops IH]; intros c Hd Hle; [done|].
  apply IH; [by apply declared_step | by apply ahead_step].
Qed.

Lemma flags_step (o : op T) c (bound armed : bool) :
  declared c →
  self_updates c ≤ thread_recycles c + 1 →
  flags_agree c bound armed →
  match o with
  | OpSet _ => flags_agree (step o c) bound true
  | OpGet _ => flags_agree (step o c) bound armed
  | OpIncrement => flags_agree (step o c) true (if bound then false else armed)
  end.
Proof.
  destruct c as [[dr vr] [du vu] cv]; intros [??] Hle [-> ->]; simpl in *; subst.
  unfold flags_agree.
  destruct o as [[d|]|v|]; destruct vr, vu; slot_unfold; slot_cases;
    split; try reflexivity; try lia.
Qed.

Lemma flags_run ops c (bound armed : bool) :
  declared c →
  self_updates c ≤ thread_recycles c + 1 →
  flags_agree c bound armed →
  set_since_last_advance ops bound armed
  = (self_updates (run ops c) =? thread_recycles (run ops c) + 1).
Proof.
  revert c bound armed; induction ops as [|o ops IH]; intros c bound armed Hd Hle Hf.
  - by destruct Hf as [_ ->].
  - pose proof (flags_step o c bound armed Hd Hle Hf) as Hstep.
    pose proof (declared_step o c Hd) as Hd'.
    pose proof (ahead_step o c Hd Hle) as Hle'.
    destruct o; simpl; by apply IH.
Qed.

Lemma flags_init (cv : ContextVar.t T) : flags_agree (init cv) false false.
Proof. by split. Qed.

Lemma stored_step (o : op T) c :
  ContextVar.value (_context_var (step o c))
  = last_set [o] (ContextVar.value (_context_var c)).
Proof.
  destruct c as [[dr vr] [du vu] cv].
  destruct o as [[d|]|v|]; destruct dr, vr, vu, du; slot_unfold; slot_cases; reflexivity.
Qed.

Lemma stored_run ops c :
  ContextVar.value (_context_var (run ops c))
  = last_set ops (ContextVar.value (_context_var c)).
Proof.
  revert c; induction ops as [|o ops IH]; intros c; [done|].
  change (run (o :: ops) c) with (run ops (step o c)).
  rewrite IH, stored_step. by destruct o.
Qed.

(** An armed slot has seen a [set]. *)
Lemma armed_last_set ops (bound : bool) (v : option T) :
  set_since_last_advance ops bound false = true → is_Some (last_set ops v).
Proof.
  assert (Hgen : ∀ ops (bound armed : bool) (v : option T),
             set_since_last_advance ops bound armed = true →
             (armed = true → is_Some v) → is_Some (last_set ops v)).
  { clear. induction ops as [|o ops' IH]; intros bound armed v H Hv; simpl in *.
    - by apply Hv.
    - destruct o; simpl in *.
      + eapply IH; eauto.
      + eapply IH; eauto.
      + eapply IH; eauto. destruct bound; [done | exact Hv]. }
  intros H. eapply Hgen; [exact H | done].
Qed.

(** What [get] answers, by the position of the slot. *)
Lemma get_armed (d : option T) c :
  thread_recycles c < self_updates c →
  fst (get d c) = ContextVar.get (_context_var c).
Proof.
  destruct c as [[dr vr] [du vu] cv]; destruct vr, vu, du, d;
    slot_unfold; intros; slot_cases; try reflexivity; lia.
Qed.

Lemma get_stale (d : option T) c :
  self_updates c ≤ thread_recycles c →
  fst (get d c) = match d with Some x => Ok x | None => Raise LookupError end.
Proof.
  destruct c as [[dr vr] [du vu] cv]; destruct vr, vu, du, d;
    slot_unfold; intros; slot_cases; try reflexivity; lia.
Qed.

(** A read leaves a stale slot stale. *)
Lemma get_keeps_stale (d : option T) c :
  declared c →
  self_updates c ≤ thread_recycles c →
  self_updates (snd (get d c)) ≤ thread_recycles (snd (get d c)).
Proof.
  destruct c as [[dr vr] [du vu] cv]; intros [??]; simpl in *; subst.
  destruct vr, vu, d; slot_unfold; intros; slot_cases; lia.
Qed.

Lemma reads_keep_stale (reads : list (op T)) c :
  Forall is_get reads →
  declared c →
  self_updates c ≤ thread_recycles c →
  self_updates (run reads c) ≤ thread_recycles (run reads c).
Proof.
  intros Hr; revert c; induction Hr as [|o reads Ho _ IH]; intros c Hd Hle; [done|].
  destruct o as [d| |]; try done.
  apply IH; [by apply (declared_step (OpGet d)) | by apply get_keeps_stale].
Qed.

(** After [set] the slot is ahead of the counter. *)
Lemma set_arms (v : T) c :
  thread_recycles (set v c) < self_updates (set v c) ∧
  ContextVar.get (_context_var (set v c)) = Ok v.
Proof.
  destruct c as [[dr vr] [du vu] cv]; destruct vr, vu, du;
    slot_unfold; slot_cases; split; try reflexivity; lia.
Qed.

Lemma set_one_ahead (v : T) c :
  declared c →
  self_updates c ≤ thread_recycles c + 1 →
  self_updates (set v c) = thread_recycles (set v c) + 1.
Proof.
  destruct c as [[dr vr] [du vu] cv]; intros [??]; simpl in *; subst.
  destruct vr, vu; slot_unfold; intros; slot_cases; lia.
Qed.

(** An increment on a bound counter raises it by one. *)
Lemma increment_bound c :
  counter_bound c →
  thread_recycles (increment_thread_recycles c) = thread_recycles c + 1 ∧
  self_updates (increment_thread_recycles c) = self_updates c.
Proof.
  destruct c as [[dr vr] [du vu] cv]; intros [r Hr]; simpl in *; subst.
  by slot_unfold.
Qed.

(** A read of an armed slot changes neither counter. *)
Lemma get_armed_state (d : option T) c :
  thread_recycles c < self_updates c →
  self_updates (snd (get d c)) = self_updates c ∧
  thread_recycles (snd (get d c)) = thread_recycles c ∧
  (counter_bound c → counter_bound (snd (get d c))).
Proof.
  destruct c as [[dr vr] [du vu] cv]; destruct vr, vu, du, d;
    slot_unfold; intros; slot_cases; repeat split; auto; lia.
Qed.

Lemma set_keeps_bound (v : T) c : counter_bound c → counter_bound (set v c).
Proof.
  destruct c as [[dr vr] [du vu] cv]; destruct vr, vu, du;
    slot_unfold; intros; slot_cases; auto.
Qed.

(** C2 (amended).  On a slot with any history, [set(x)] followed by
    [get()] returns [x].  If the recycle counter is bound (the hook
    [increment_thread_recycles] has run at least once in the context), then
    after the next call of the hook every read made before a new [set]
    fails: [get()] raises [LookupError] and [get(d)] returns [d], so the
    value of the earlier generation is not returned.  After [set(y)] in
    the new generation [get()] returns [y]. *)
Theorem set_get_across_generations
    (cv : ContextVar.t T) ops (reads : list (op T)) (x y d : T) :
  let c1 := set x (run ops (init cv)) in
  let c2 := increment_thread_recycles (snd (get None c1)) in
  let c3 := run reads c2 in
  fst (get None c1) = Ok x ∧
  fst (get None (set y c3)) = Ok y ∧
  (counter_bound (run ops (init cv)) →
   Forall is_get reads →
   fst (get None c3) = Raise LookupError ∧
   fst (get (Some d) c3) = Ok d).
Proof.
  intros c1 c2 c3.
  split; [rewrite get_armed; apply set_arms|].
  split; [rewrite get_armed; apply set_arms|].
  intros Hb Hreads.
  pose proof (declared_run ops _ (declared_init cv)) as Hd.
  assert (Hle : self_updates (run ops (init cv)) ≤ thread_recycles (run ops (init cv)) + 1).
  { apply ahead_run; [apply declared_init | by compute]. }
  pose proof (set_one_ahead x _ Hd Hle) as H1. fold c1 in H1.
  pose proof (declared_step (OpSet x) _ Hd) as Hd1. simpl in Hd1. fold c1 in Hd1.
  pose proof (set_keeps_bound x _ Hb) as Hb1. fold c1 in Hb1.
  assert (Harmed : thread_recycles c1 < self_updates c1) by lia.
  destruct (get_armed_state None c1 Harmed) as (Hu & Hg & Hbound).
  pose proof (declared_step (OpGet None) _ Hd1) as Hd1'. simpl in Hd1'.
  destruct (increment_bound _ (Hbound Hb1)) as [Hg2 Hu2]. fold c2 in Hg2, Hu2.
  pose proof (declared_step OpIncrement _ Hd1') as Hd2. simpl in Hd2. fold c2 in Hd2.
  assert (Hstale : self_updates c3 ≤ thread_recycles c3).
  { apply reads_keep_stale; [done | done | lia]. }
  split; by rewrite get_stale.
Qed.

(** C7 (amended).  At the end of every operation the update generation of
    a slot exceeds the recycle generation by at most one, and a [set]
    leaves it exactly one ahead. *)
Theorem updates_at_most_one_ahead (cv : ContextVar.t T) ops :
  let c := run ops (init cv) in
  self_updates c ≤ thread_recycles c + 1 ∧
  ∀ v : T, self_updates (set v c) = thread_recycles (set v c) + 1.
Proof.
  intros c.
  assert (Hle : self_updates c ≤ thread_recycles c + 1).
  { apply ahead_run; [apply declared_init | by compute]. }
  split; [done|].
  intros v. apply set_one_ahead; [|done]. apply declared_run, declared_init.
Qed.

(** C9 (amended).  After every sequence of [get], [set] and
    [increment_thread_recycles] the update counter is at most the recycle
    counter plus one; it equals the recycle counter plus one exactly when
    a [set] has occurred since the last call of
    [increment_thread_recycles] that raised the counter (the first call in
    a context binds the counter to [0] and raises nothing); and that is
    exactly when [get] returns the stored value, the one of the last
    [set]: otherwise it returns the default or raises [LookupError]. *)
Theorem updates_ahead_iff_set_since_advance (cv : ContextVar.t T) ops (d : option T) :
  let c := run ops (init cv) in
  self_updates c ≤ thread_recycles c + 1 ∧
  (self_updates c = thread_recycles c + 1
   ↔ set_since_last_advance ops false false = true) ∧
  (self_updates c = thread_recycles c + 1
   → ∃ v, last_set ops (ContextVar.value cv) = Some v ∧ fst (get d c) = Ok v) ∧
  (self_updates c ≠ thread_recycles c + 1
   → fst (get d c) = match d with Some x => Ok x | None => Raise LookupError end).
Proof.
  intros c.
  assert (Hle : self_updates c ≤ thread_recycles c + 1).
  { apply ahead_run; [apply declared_init | by compute]. }
  assert (Hflag : set_since_last_advance ops false false
                  = (self_updates c =? thread_recycles c + 1)).
  { apply flags_run; [apply declared_init | by compute | apply flags_init]. }
  split; [done|]. split; [|split].
  - rewrite Hflag. symmetry. apply Z.eqb_eq.
  - intros Heq.
    assert (Harm : set_since_last_advance ops false false = true).
    { rewrite Hflag. by apply Z.eqb_eq. }
    destruct (armed_last_set ops false (ContextVar.value cv) Harm) as [v Hv].
    exists v. split; [done|].
    rewrite get_armed by lia.
    unfold ContextVar.get. unfold c. rewrite stored_run. simpl. by rewrite Hv.
  - intros Hne. apply get_stale. lia.
Qed.

End SlotFacts.

(** C2, witness: one request has started, the slot is set and read, the
    next request starts and reads twice. *)
Lemma set_get_across_generations_witness :
  let c := RecyclableContextVar.run [RecyclableContextVar.OpIncrement]
             (RecyclableContextVar.init (ContextVar.new None)) in
  let c1 := RecyclableContextVar.set "x" c in
  let c2 := RecyclableContextVar.increment_thread_recycles
              (snd (RecyclableContextVar.get None c1)) in
  let c3 := RecyclableContextVar.run [RecyclableContextVar.OpGet None] c2 in
  RecyclableContextVar.counter_bound c ∧
  fst (RecyclableContextVar.get None c1) = Ok "x" ∧
  fst (RecyclableContextVar.get None (RecyclableContextVar.set "y" c3)) = Ok "y" ∧
  fst (RecyclableContextVar.get None c3) = Raise LookupError ∧
  fst (RecyclableContextVar.get (Some "d") c3) = Ok "d".
Proof.
  intros c c1 c2 c3.
  assert (Hb : RecyclableContextVar.counter_bound c) by by eexists.
  destruct (set_get_across_generations (ContextVar.new None)
              [RecyclableContextVar.OpIncrement] [RecyclableContextVar.OpGet None]
              "x" "y" "d") as (H1 & H2 & H3).
  destruct (H3 Hb ltac:(repeat constructor)) as [H4 H5].
  repeat split; assumption.
Defined.

(** C2, as stated: in a context where the hook has never run, [set("x")],
    then the hook, then [get()] returns ["x"]: the first call of the hook
    binds the counter to [0], the value an unbound counter already reads
    as. *)
Lemma first_increment_keeps_value_visible :
  ¬ (∀ (ops : list (RecyclableContextVar.op string)) (x : string),
       let c1 := RecyclableContextVar.set x
                   (RecyclableContextVar.run ops
                      (RecyclableContextVar.init (ContextVar.new None))) in
       fst (RecyclableContextVar.get None
              (RecyclableContextVar.increment_thread_recycles c1))
       = Raise LookupError).
Proof.
  intros H. specialize (H [] "x"). vm_compute in H. discriminate H.
Qed.

(** C7, as stated: after one [set] the update generation is [1] and the
    recycle generation is [0]. *)
Lemma set_puts_updates_ahead :
  ¬ (∀ ops : list (RecyclableContextVar.op string),
       let c := RecyclableContextVar.run ops
                  (RecyclableContextVar.init (ContextVar.new None)) in
       RecyclableContextVar.self_updates c ≤ RecyclableContextVar.thread_recycles c).
Proof.
  intros H. specialize (H [RecyclableContextVar.OpSet "x"]). vm_compute in H.
  by apply H.
Qed.

(** C9, witness: the hook, then [set("x")]: the slot is one ahead and
    [get()] returns ["x"]. *)
Lemma updates_ahead_iff_set_since_advance_witness :
  let ops := [RecyclableContextVar.OpIncrement; RecyclableContextVar.OpSet "x"] in
  let c := RecyclableContextVar.run ops (RecyclableContextVar.init (ContextVar.new None)) in
  RecyclableContextVar.self_updates c = RecyclableContextVar.thread_recycles c + 1 ∧
  RecyclableContextVar.set_since_last_advance ops false false = true ∧
  ∃ v, RecyclableContextVar.last_set ops None = Some v ∧
       fst (RecyclableContextVar.get None c) = Ok v.
Proof.
  intros ops c.
  destruct (updates_ahead_iff_set_since_advance (ContextVar.new None) ops None)
    as (_ & Hiff & Hget & _).
  split; [reflexivity|]. split; [by apply Hiff|]. by apply Hget.
Defined.

(** C9, as stated: after [set("x")] and the first call of the hook the
    update counter is one ahead although no [set] has occurred since the
    call. *)
Lemma first_increment_leaves_slot_ahead :
  ¬ (∀ ops : list (RecyclableContextVar.op string),
       let c := RecyclableContextVar.run ops
                  (RecyclableContextVar.init (ContextVar.new None)) in
       RecyclableContextVar.self_updates c = RecyclableContextVar.thread_recycles c + 1
       ↔ RecyclableContextVar.set_since_last_increment ops false = true).
Proof.
  intros H.
  specialize (H [RecyclableContextVar.OpSet "x"; RecyclableContextVar.OpIncrement]).
  vm_compute in H. destruct H as [H _]. discriminate (H eq_refl).
Qed.


(** ** The store *)

Section StoreFacts.
Import redis_client.
Implicit Types (r : redis) (h : gmap string Z) (w : world).

Lemma hash_at_put_hash key h r : hash_at key (put_hash key h r) = h.
Proof.
  unfold hash_at, put_hash. destruct (decide (h = ∅)) as [->|]; simpl.
  - by rewrite lookup_delete_eq.
  - by rewrite lookup_insert_eq.
Qed.

Lemma hash_at_put_hash_ne key key' h r :
  key ≠ key' → hash_at key' (put_hash key h r) = hash_at key' r.
Proof.
  intros Hne. unfold hash_at, put_hash. destruct (decide (h = ∅)); simpl.
  - by rewrite lookup_delete_ne.
  - by rewrite lookup_insert_ne.
Qed.

Lemma setex_hash_at key' key (ttl v : Z) (w : world) :
  hashes (store w) !! key = None →
  hash_at key' (store (setex key ttl v w)) = hash_at key' (store w).
Proof.
  intros Hty. unfold hash_at, setex. cbn [store emit with_store hashes].
  by rewrite delete_id.
Qed.

Lemma strings_put_hash key h r : strings (put_hash key h r) = strings r.
Proof. unfold put_hash. by destruct (decide (h = ∅)). Qed.

Lemma hdel_fields_lookup fields h k :
  hdel_fields fields h !! k = if decide (k ∈ fields) then None else h !! k.
Proof.
  unfold hdel_fields. destruct (decide (k ∈ fields)) as [Hin|Hout].
  - apply map_lookup_filter_None_2. right. intros x _. simpl. tauto.
  - destruct (h !! k) as [v|] eqn:Hk.
    + by apply map_lookup_filter_Some_2.
    + apply map_lookup_filter_None_2. by left.
Qed.

Lemma hdel_fields_one k h : hdel_fields [k] h = delete k h.
Proof.
  apply map_eq. intros k'. rewrite hdel_fields_lookup.
  destruct (decide (k' ∈ [k])) as [Hin|Hout].
  - apply list_elem_of_singleton in Hin as ->. by rewrite lookup_delete_eq.
  - rewrite lookup_delete_ne; [done|]. intros ->. apply Hout. by apply list_elem_of_singleton.
Qed.

End StoreFacts.

(** ** The admission controller *)

Section LimiterFacts.
Import redis_client.
Implicit Types (self : RateLimit.t) (a : RateLimit.attributes) (w : world).

Lemma timeout_requests_eq (l : list (string * Z)) w :
  RateLimit.timeout_requests l w
  = (RateLimit.timed_out_keys (clock w) (tick w) l,
     mk_world (store w) (clock w) (tick w + length l) (uuid4 w) (drawn w) (trace w)
       (reply_order w) (replies w)).
Proof.
  revert w; induction l as [|[k v] l IH]; intros w.
  - destruct w; simpl. by rewrite Nat.add_0_r.
  - cbn [RateLimit.timeout_requests RateLimit.timed_out_keys time_time].
    rewrite IH. cbn [store clock tick uuid4 drawn trace reply_order replies length].
    replace (S (tick w) + length l)%nat with (tick w + S (length l))%nat by lia.
    by destruct (_ >? _).
Qed.

Lemma timed_out_keys_elem (clk : nat → Z) (n : nat) (l : list (string * Z)) (k : string) :
  k ∈ RateLimit.timed_out_keys clk n l
  ↔ ∃ (i : nat) (v : Z),
      l !! i = Some (k, v) ∧ clk (n + i)%nat - v > RateLimit._REQUEST_MAX_ALIVE_TIME.
Proof.
  revert n; induction l as [|[k' v'] l IH]; intros n.
  - simpl. split; [by intros ?%elem_of_nil | by intros (i & v & ? & _)].
  - cbn [RateLimit.timed_out_keys]. rewrite Z.gtb_ltb.
    destruct (Z.ltb_spec RateLimit._REQUEST_MAX_ALIVE_TIME (clk n - v')) as [Hold|Hyoung].
    + rewrite elem_of_cons, IH. split.
      * intros [->|(i & v & Hi & Hv)].
        -- exists 0%nat, v'. rewrite Nat.add_0_r. split; [done | lia].
        -- exists (S i), v. split; [done|]. by replace (n + S i)%nat with (S n + i)%nat by lia.
      * intros ([|i] & v & Hi & Hv).
        -- left. by injection Hi as -> ->.
        -- right. exists i, v. split; [done|].
           by replace (S n + i)%nat with (n + S i)%nat by lia.
    + rewrite IH. split.
      * intros (i & v & Hi & Hv). exists (S i), v. split; [done|].
        by replace (n + S i)%nat with (S n + i)%nat by lia.
      * intros ([|i] & v & Hi & Hv).
        -- injection Hi as -> ->. rewrite Nat.add_0_r in Hv. lia.
        -- exists i, v. split; [done|].
           by replace (S n + i)%nat with (n + S i)%nat by lia.
Qed.

(** The hash after the second half of [flush_cache]. *)
Lemma flush_active_requests_hash a w :
  let h := hash_at (RateLimit.active_requests_key a) (store w) in
  hash_at (RateLimit.active_requests_key a) (store (RateLimit.flush_active_requests a w))
  = hdel_fields
      (RateLimit.timed_out_keys (clock w) (tick w) (reply_order w (replies w) h)) h.
Proof.
  intros h. unfold RateLimit.flush_active_requests. cbn [exists_].
  destruct (key_exists _ _) eqn:Hex; cbn [negb].
  - cbn [hgetall]. rewrite timeout_requests_eq.
    cbn [store clock tick emit expire reply_order replies].
    fold h. destruct (RateLimit.timed_out_keys _ _ _) eqn:Hks.
    + cbn [store]. fold h. symmetry. apply map_filter_id. intros ?? _. simpl.
      apply not_elem_of_nil.
    + unfold hdel. cbn [store emit with_store]. rewrite hash_at_put_hash. by fold h.
  - cbn [store emit].
    assert (Hh : h = ∅).
    { unfold key_exists in Hex. apply orb_false_elim in Hex as [_ Hex].
      apply bool_decide_eq_false in Hex. unfold h, hash_at.
      destruct (hashes (store w) !! _); [|done]. exfalso. apply Hex. by eexists. }
    fold h. rewrite Hh. symmetry. apply map_filter_empty.
Qed.

Lemma flush_active_requests_touch (now : Z) a w :
  RateLimit.flush_active_requests (RateLimit.with_last_recalculate_time now a) w
  = RateLimit.flush_active_requests a w.
Proof. reflexivity. Qed.

(** The second half of [flush_cache] draws no id and keeps the clock. *)
Lemma flush_active_requests_frame a w :
  uuid4 (RateLimit.flush_active_requests a w) = uuid4 w ∧
  drawn (RateLimit.flush_active_requests a w) = drawn w ∧
  clock (RateLimit.flush_active_requests a w) = clock w.
Proof.
  unfold RateLimit.flush_active_requests. cbn [exists_].
  destruct (key_exists _ _); cbn [negb]; [|done].
  cbn [hgetall]. rewrite timeout_requests_eq.
  by destruct (RateLimit.timed_out_keys _ _ _).
Qed.

(** [flush_cache] on an enabled limiter: it succeeds, records the time of
    the flush, takes the limit stored under the limit key if there is one,
    and prunes the hash. *)
Lemma flush_cache_enabled self a (use_local_value : bool) w :
  let key := RateLimit.active_requests_key a in
  let h := hash_at key (store w) in
  RateLimit.disabled self = false →
  RateLimit.attrs self = Some a →
  hashes (store w) !! RateLimit.max_active_requests_key a = None →
  ∃ self' w',
    RateLimit.flush_cache self use_local_value w = (Ok tt, self', w') ∧
    RateLimit.attrs self'
    = Some (RateLimit.with_last_recalculate_time (clock w (tick w)) a) ∧
    RateLimit.max_active_requests self'
    = (if use_local_value then RateLimit.max_active_requests self
       else from_option id (RateLimit.max_active_requests self)
              (strings (store w) !! RateLimit.max_active_requests_key a)) ∧
    (uuid4 w' = uuid4 w ∧ drawn w' = drawn w ∧ clock w' = clock w) ∧
    hash_at key (store w')
    = hdel_fields
        (RateLimit.timed_out_keys (clock w) (S (tick w)) (reply_order w (replies w) h)) h.
Proof.
  intros key h Hd Ha Hty. unfold RateLimit.flush_cache. rewrite Hd.
  cbn [time_time]. rewrite Ha.
  destruct use_local_value.
  - rewrite flush_active_requests_touch.
    eexists _, _. split; [reflexivity|]. split; [reflexivity|]. split; [reflexivity|].
    split; [by rewrite !(proj1 (flush_active_requests_frame _ _)),
                      !(proj1 (proj2 (flush_active_requests_frame _ _))),
                      !(proj2 (proj2 (flush_active_requests_frame _ _)))|].
    unfold key. rewrite flush_active_requests_hash, ?setex_hash_at by done. reflexivity.
  - cbn [exists_ RateLimit.max_active_requests_key RateLimit.with_last_recalculate_time
           store emit].
    unfold key_exists. rewrite Hty.
    destruct (strings (store w) !! RateLimit.max_active_requests_key a) as [v|] eqn:Hv.
    + rewrite bool_decide_eq_true_2 by by eexists. cbn [orb negb].
      cbn [get store emit]. rewrite Hty, Hv.
      rewrite (flush_active_requests_touch (clock w (tick w)) a).
      eexists _, _. split; [reflexivity|]. split; [reflexivity|]. split; [reflexivity|].
      split; [by rewrite !(proj1 (flush_active_requests_frame _ _)),
                        !(proj1 (proj2 (flush_active_requests_frame _ _))),
                        !(proj2 (proj2 (flush_active_requests_frame _ _)))|].
      unfold key. rewrite flush_active_requests_hash, ?setex_hash_at by done. reflexivity.
    + rewrite !bool_decide_eq_false_2 by (intros [? ?]; discriminate). cbn [orb negb].
      rewrite (flush_active_requests_touch (clock w (tick w)) a).
      eexists _, _. split; [reflexivity|]. split; [reflexivity|]. split; [reflexivity|].
      split; [by rewrite !(proj1 (flush_active_requests_frame _ _)),
                        !(proj1 (proj2 (flush_active_requests_frame _ _))),
                        !(proj2 (proj2 (flush_active_requests_frame _ _)))|].
      unfold key. rewrite flush_active_requests_hash, ?setex_hash_at by done. reflexivity.
Qed.

(** C5 (amended).  On a disabled limiter [flush_cache] returns at once
    and changes nothing.  On an enabled limiter, for every state of the
    hash, [flush_cache] deletes exactly the entries whose time stamp is more
    than ten minutes behind the clock when the scan examines them, and
    keeps every other entry with its time stamp; it adds none.  The scan
    walks the reply to [HGETALL] in the order of the server, which lists
    every field once, and reads the clock once for every field.  When the
    clock reads [now] throughout the scan, what remains is the entries with
    [now - stamp <= 600].  The key of the limit is taken not to hold a
    hash, as the two families of keys are disjoint. *)
Theorem flush_cache_prunes self a (use_local_value : bool) w :
  let key := RateLimit.active_requests_key a in
  let h := hash_at key (store w) in
  let reply := reply_order w (replies w) h in
  (RateLimit.disabled self = true →
     RateLimit.flush_cache self use_local_value w = (Ok tt, self, w)) ∧
  (RateLimit.disabled self = false →
   RateLimit.attrs self = Some a →
   hashes (store w) !! RateLimit.max_active_requests_key a = None →
   lists_fields h w →
   let '(r, _, w') := RateLimit.flush_cache self use_local_value w in
   let h' := hash_at key (store w') in
   r = Ok tt ∧
   (∀ k : string, h !! k = None → h' !! k = None) ∧
   (∀ (i : nat) (k : string) (v : Z),
      reply !! i = Some (k, v) →
      h' !! k = if decide (clock w (S (tick w) + i)%nat - v > RateLimit._REQUEST_MAX_ALIVE_TIME)
                then None else Some v) ∧
   (∀ now : Z,
      (∀ i : nat, (i < size h)%nat → clock w (S (tick w) + i)%nat = now) →
      h' = filter (λ p, now - p.2 ≤ RateLimit._REQUEST_MAX_ALIVE_TIME) h)).
Proof.
  intros key h reply. split.
  { intros Hd. unfold RateLimit.flush_cache. by rewrite Hd. }
  intros Hd Ha Hty Hperm. unfold lists_fields in Hperm. fold reply in Hperm.
  destruct (flush_cache_enabled self a use_local_value w Hd Ha Hty)
    as (self' & w' & -> & _ & _ & _ & Hh').
  fold key h reply in Hh'. cbv zeta. rewrite Hh'. clear Hh'.
  set (ks := RateLimit.timed_out_keys (clock w) (S (tick w)) reply).
  assert (Hnodup : NoDup reply.*1).
  { rewrite Hperm. apply NoDup_fst_map_to_list. }
  assert (Hentry : ∀ (i : nat) (k : string) (v : Z),
             reply !! i = Some (k, v) →
             k ∈ ks ↔ clock w (S (tick w) + i)%nat - v > RateLimit._REQUEST_MAX_ALIVE_TIME).
  { intros i k v Hi. unfold ks. rewrite timed_out_keys_elem. split.
    - intros (j & v' & Hj & Hv').
      assert (i = j) as <-.
      { eapply NoDup_lookup; [exact Hnodup | |].
        - rewrite list_lookup_fmap, Hi. reflexivity.
        - rewrite list_lookup_fmap, Hj. reflexivity. }
      rewrite Hi in Hj. by injection Hj as <-.
    - intros Hv. by exists i, v. }
  split; [done|]. split; [|split].
  - intros k Hk. rewrite hdel_fields_lookup. by destruct (decide _).
  - intros i k v Hi. rewrite hdel_fields_lookup.
    assert (Hk : h !! k = Some v).
    { apply elem_of_map_to_list. rewrite <- Hperm. eapply list_elem_of_lookup_2. exact Hi. }
    rewrite Hk.
    destruct (decide (k ∈ ks)) as [Hin|Hout]; destruct (decide (_ > _)) as [Hold|Hyoung];
      try done.
    + by apply (Hentry i k v Hi) in Hin.
    + by apply (Hentry i k v Hi) in Hold.
  - intros now Hnow. apply map_eq. intros k.
    rewrite hdel_fields_lookup, map_lookup_filter.
    destruct (h !! k) as [v|] eqn:Hk; simpl.
    + apply elem_of_map_to_list in Hk as Hin. rewrite <- Hperm in Hin.
      apply list_elem_of_lookup_1 in Hin as [i Hi].
      assert (Hlt : (i < size h)%nat).
      { rewrite <- length_map_to_list, <- Hperm. eapply lookup_lt_Some. exact Hi. }
      pose proof (Hentry i k v Hi) as He. rewrite (Hnow i Hlt) in He.
      destruct (decide (k ∈ ks)) as [Hin'|Hout].
      * rewrite option_guard_False; [done|]. apply He in Hin'. lia.
      * rewrite option_guard_True; [done|].
        destruct (Z_le_gt_dec (now - v) RateLimit._REQUEST_MAX_ALIVE_TIME); [done|].
        exfalso. apply Hout, He. done.
    + by destruct (decide _).
Qed.

(** C4 (amended).  [disabled()] is true exactly when
    [max_active_requests <= 0].  While the limiter is disabled, [enter]
    returns the reserved id and leaves the world as it is: no command is
    sent.  [exit] of the reserved id, the only id [enter] hands out then,
    sends no command and leaves the store as it is; so does [exit] of any
    id on a limiter that has never been enabled, which has no key to
    address. *)
Theorem disabled_limiter_leaves_store_alone
    self (request_id : option string) (released : string) w :
  (RateLimit.disabled self = true ↔ RateLimit.max_active_requests self ≤ 0) ∧
  (RateLimit.disabled self = true →
     RateLimit.enter self request_id w = (Ok RateLimit._UNLIMITED_REQUEST_ID, self, w) ∧
     RateLimit.exit self RateLimit._UNLIMITED_REQUEST_ID w
     = (Ok tt, emit (ExitCall RateLimit._UNLIMITED_REQUEST_ID) w) ∧
     (RateLimit.attrs self = None →
        snd (RateLimit.exit self released w) = emit (ExitCall released) w)).
Proof.
  split; [apply Z.leb_le|].
  intros Hd. unfold RateLimit.enter, RateLimit.exit. rewrite Hd.
  repeat split.
  intros ->. by destruct (bool_decide _).
Qed.

Lemma elapsed_within (now t0 : Z) :
  now - t0 ≤ RateLimit._ACTIVE_REQUESTS_COUNT_FLUSH_INTERVAL →
  RateLimit.elapsed_more_than now (RateLimit.seconds t0)
    RateLimit._ACTIVE_REQUESTS_COUNT_FLUSH_INTERVAL = false.
Proof. intros H. simpl. rewrite Z.gtb_ltb. apply Z.ltb_ge. exact H. Qed.

(** [enter] when no flush is due and the hash is full. *)
Lemma enter_full self a (t0 : Z) (request_id : option string) w :
  RateLimit.attrs self = Some a →
  0 < RateLimit.max_active_requests self →
  RateLimit.last_recalculate_time a = RateLimit.seconds t0 →
  clock w (tick w) - t0 ≤ RateLimit._ACTIVE_REQUESTS_COUNT_FLUSH_INTERVAL →
  RateLimit.max_active_requests self
    ≤ Z.of_nat (size (hash_at (RateLimit.active_requests_key a) (store w))) →
  RateLimit.enter self request_id w
  = (Raise (AppInvokeQuotaExceededError
              (RateLimit.too_many_requests (RateLimit.client_id a)
                 (RateLimit.max_active_requests self))),
     self,
     mk_world (store w) (clock w) (S (tick w)) (uuid4 w)
       (if RateLimit.falsy request_id then S (drawn w) else drawn w)
       (trace w ++ [Redis (HLEN (RateLimit.active_requests_key a))])
       (reply_order w) (replies w)).
Proof.
  intros Ha Hpos Ht Hdue Hfull.
  unfold RateLimit.enter, RateLimit.disabled.
  destruct (Z.leb_spec (RateLimit.max_active_requests self) 0) as [|_]; [lia|].
  cbn [time_time]. rewrite Ha, Ht, (elapsed_within _ _ Hdue). cbn -[Z.geb]. rewrite Ha.
  destruct (RateLimit.falsy request_id); cbn -[Z.geb];
    (destruct (Z.geb_spec (Z.of_nat (size (hash_at (RateLimit.active_requests_key a) (store w))))
               (RateLimit.max_active_requests self)) as [_|]; [reflexivity | lia]).
Qed.

(** [enter] when no flush is due and the hash has room. *)
Lemma enter_room self a (t0 : Z) (request_id : option string) w :
  RateLimit.attrs self = Some a →
  0 < RateLimit.max_active_requests self →
  RateLimit.last_recalculate_time a = RateLimit.seconds t0 →
  clock w (tick w) - t0 ≤ RateLimit._ACTIVE_REQUESTS_COUNT_FLUSH_INTERVAL →
  Z.of_nat (size (hash_at (RateLimit.active_requests_key a) (store w)))
    < RateLimit.max_active_requests self →
  RateLimit.enter self request_id w
  = (Ok (chosen_id request_id w),
     self,
     mk_world
       (put_hash (RateLimit.active_requests_key a)
          (<[chosen_id request_id w := clock w (S (tick w))]>
             (hash_at (RateLimit.active_requests_key a) (store w)))
          (store w))
       (clock w) (S (S (tick w))) (uuid4 w)
       (if RateLimit.falsy request_id then S (drawn w) else drawn w)
       (trace w ++ [Redis (HLEN (RateLimit.active_requests_key a));
                    Redis (HSET (RateLimit.active_requests_key a)
                             (chosen_id request_id w) (clock w (S (tick w))))])
       (reply_order w) (replies w)).
Proof.
  intros Ha Hpos Ht Hdue Hroom.
  unfold RateLimit.enter, RateLimit.disabled, chosen_id.
  destruct (Z.leb_spec (RateLimit.max_active_requests self) 0) as [|_]; [lia|].
  cbn [time_time]. rewrite Ha, Ht, (elapsed_within _ _ Hdue). cbn -[Z.geb]. rewrite Ha.
  destruct (RateLimit.falsy request_id); cbn -[Z.geb];
    (destruct (Z.geb_spec (Z.of_nat (size (hash_at (RateLimit.active_requests_key a) (store w))))
               (RateLimit.max_active_requests self)) as [|_]; [lia|]);
    unfold hset, emit, with_store; cbn; by rewrite <- app_assoc.
Qed.

(** [enter] when a flush is due: the count and the limit that the check
    compares are those left by the flush. *)
Lemma enter_flush_due self a (t0 : Z) (request_id : option string) w :
  let key := RateLimit.active_requests_key a in
  let h := hash_at key (store w) in
  let limit := from_option id (RateLimit.max_active_requests self)
                 (strings (store w) !! RateLimit.max_active_requests_key a) in
  let h' := hdel_fields
              (RateLimit.timed_out_keys (clock w) (S (S (tick w)))
                 (reply_order w (replies w) h)) h in
  RateLimit.attrs self = Some a →
  0 < RateLimit.max_active_requests self →
  RateLimit.last_recalculate_time a = RateLimit.seconds t0 →
  RateLimit._ACTIVE_REQUESTS_COUNT_FLUSH_INTERVAL < clock w (tick w) - t0 →
  hashes (store w) !! RateLimit.max_active_requests_key a = None →
  (RateLimit.enter self request_id w).1.1
  = if Z.of_nat (size h') >=? limit
    then Raise (AppInvokeQuotaExceededError
                  (RateLimit.too_many_requests (RateLimit.client_id a) limit))
    else Ok (chosen_id request_id w).
Proof.
  intros key h limit h' Ha Hpos Ht Hdue Hty.
  assert (Hd : RateLimit.disabled self = false).
  { unfold RateLimit.disabled. apply Z.leb_gt. exact Hpos. }
  unfold RateLimit.enter. rewrite Hd. cbn [time_time]. rewrite Ha, Ht.
  assert (Hel : RateLimit.elapsed_more_than (clock w (tick w)) (RateLimit.seconds t0)
                  RateLimit._ACTIVE_REQUESTS_COUNT_FLUSH_INTERVAL = true).
  { simpl. rewrite Z.gtb_ltb. by apply Z.ltb_lt. }
  rewrite Hel.
  match goal with |- context [RateLimit.flush_cache self false ?x] => set (w1 := x) end.
  destruct (flush_cache_enabled self a false w1 Hd Ha Hty)
    as (self' & w' & -> & Ha' & Hmax & (Hu & Hdr & _) & Hh).
  rewrite Ha'. unfold chosen_id.
  change (strings (store w1)) with (strings (store w)) in Hmax. fold limit in Hmax.
  change (hash_at (RateLimit.active_requests_key a) (store w1)) with h in Hh.
  change (clock w1) with (clock w) in Hh. change (tick w1) with (S (tick w)) in Hh.
  fold key h' in Hh.
  change (uuid4 w1) with (uuid4 w) in Hu. change (drawn w1) with (drawn w) in Hdr.
  destruct (RateLimit.falsy request_id); cbn -[Z.geb hdel_fields];
    fold key; rewrite Hh, Hmax, ?Hu, ?Hdr; by destruct (_ >=? _).
Qed.

(** [exit] of a request that is not the reserved one. *)
Lemma exit_registered self a (released : string) w :
  RateLimit.attrs self = Some a →
  released ≠ RateLimit._UNLIMITED_REQUEST_ID →
  RateLimit.exit self released w
  = (Ok tt,
     mk_world
       (put_hash (RateLimit.active_requests_key a)
          (delete released (hash_at (RateLimit.active_requests_key a) (store w)))
          (store w))
       (clock w) (tick w) (uuid4 w) (drawn w)
       (trace w ++ [ExitCall released;
                    Redis (HDEL (RateLimit.active_requests_key a) [released])])
       (reply_order w) (replies w)).
Proof.
  intros Ha Hne. unfold RateLimit.exit. rewrite Ha.
  rewrite bool_decide_eq_false_2 by done.
  unfold hdel, emit, with_store. cbn. rewrite hdel_fields_one. by rewrite <- app_assoc.
Qed.

(** C1 (amended).  Take a client with [max_active_requests = N > 0]
    whose hash holds [N] entries, and calls of [enter] at which no flush
    is due (at most five minutes have passed since the last one).  Then
    [enter] raises the quota error, whose text names [client_id] and [N],
    and leaves the store as it is; after an [exit] that removes an entry,
    the next [enter] returns its request id (the one supplied, a fresh one
    if none or an empty one was supplied) and the hash holds that id with
    the time read for the registration. *)
Theorem enter_at_capacity
    self a (t0 : Z) (request_id next_id : option string) (released : string) w :
  let key := RateLimit.active_requests_key a in
  let N := RateLimit.max_active_requests self in
  RateLimit.attrs self = Some a →
  0 < N →
  Z.of_nat (size (hash_at key (store w))) = N →
  RateLimit.last_recalculate_time a = RateLimit.seconds t0 →
  clock w (tick w) - t0 ≤ RateLimit._ACTIVE_REQUESTS_COUNT_FLUSH_INTERVAL →
  clock w (S (tick w)) - t0 ≤ RateLimit._ACTIVE_REQUESTS_COUNT_FLUSH_INTERVAL →
  released ≠ RateLimit._UNLIMITED_REQUEST_ID →
  is_Some (hash_at key (store w) !! released) →
  let '(r1, self1, w1) := RateLimit.enter self request_id w in
  let '(r2, w2) := RateLimit.exit self1 released w1 in
  let '(r3, self3, w3) := RateLimit.enter self1 next_id w2 in
  r1 = Raise (AppInvokeQuotaExceededError
                (RateLimit.too_many_requests (RateLimit.client_id a) N)) ∧
  store w1 = store w ∧
  hash_at key (store w2) = delete released (hash_at key (store w)) ∧
  r3 = Ok (chosen_id next_id w2) ∧
  hash_at key (store w3) !! chosen_id next_id w2 = Some (clock w (S (S (tick w)))).
Proof.
  intros key N Ha Hpos Hsize Ht Hdue1 Hdue2 Hne Hin.
  rewrite (enter_full self a t0 request_id w Ha Hpos Ht Hdue1) by (fold key N; lia).
  rewrite (exit_registered self a released _ Ha Hne). cbn [store clock tick uuid4 drawn trace].
  match goal with |- context [RateLimit.enter self next_id ?x] => set (w2 := x) end.
  assert (Hh2 : hash_at key (store w2) = delete released (hash_at key (store w))).
  { subst w2. cbn [store]. apply hash_at_put_hash. }
  rewrite (enter_room self a t0 next_id w2 Ha Hpos Ht).
  - repeat split; try done.
    cbn [store]. rewrite hash_at_put_hash. fold key. by rewrite lookup_insert_eq.
  - exact Hdue2.
  - fold key N. rewrite Hh2, map_size_delete_Some by done.
    assert (size (hash_at key (store w)) ≠ 0%nat).
    { intros H0. apply map_size_empty_inv in H0. rewrite H0 in Hin.
      rewrite lookup_empty in Hin. by destruct Hin. }
    lia.
Qed.

End LimiterFacts.

(** ** The releasing wrapper *)

Section WrapperFacts.
Import RateLimitGenerator.
Implicit Types (self : RateLimitGenerator.t) (w : world) (calls : list call).

Local Ltac wrapper_cases :=
  repeat match goal with
    | |- context [bool_decide ?P] => destruct (bool_decide P) eqn:?
    | |- context [RateLimit.attrs ?rl] => destruct (RateLimit.attrs rl) eqn:?
    | |- context [Generator.has_close ?g] => destruct (Generator.has_close g) eqn:?
    | |- context [is_Exception ?e] => destruct (is_Exception e) eqn:?
    | |- context [match ?g with Some _ => _ | None => _ end] => destruct g
    | |- context [match Generator.body ?g with _ => _ end] => destruct (Generator.body g) as [|[?|?] ?]
    end; cbn -[RateLimit._UNLIMITED_REQUEST_ID] in *.

Local Ltac wrapper_unfold :=
  unfold next, close, Generator.next, Generator.close, RateLimit.exit,
    redis_client.hdel, emit, with_store;
  cbn -[RateLimit._UNLIMITED_REQUEST_ID] in *.

(** A closed wrapper answers without touching anything. *)
Lemma closed_inert self w :
  closed self = true →
  next self w = (Raise StopIteration, self, w) ∧ close self w = (Ok tt, self, w).
Proof. intros H. unfold next, close. by rewrite H. Qed.

(** The calls of [exit] that one call on the wrapper adds to the log. *)
Lemma step_release (c : call) self w :
  let '(self', w') := step c self w in
  request_id self' = request_id self ∧
  (closed self = true → closed self' = true) ∧
  filter is_exit_call (trace w')
  = filter is_exit_call (trace w)
    ++ (if negb (closed self) && closed self' then [ExitCall (request_id self)] else []).
Proof.
  destruct self as [rl g rid cl]. destruct cl.
  - destruct c; cbn; by rewrite app_nil_r.
  - destruct c; unfold step; wrapper_unfold; wrapper_cases;
      repeat split; try done;
      rewrite ?filter_app, ?app_nil_r; cbn; by rewrite ?app_nil_r.
Qed.

Lemma run_release calls self w :
  let '(self', w') := run calls self w in
  request_id self' = request_id self ∧
  (closed self = true → closed self' = true) ∧
  filter is_exit_call (trace w')
  = filter is_exit_call (trace w)
    ++ (if negb (closed self) && closed self' then [ExitCall (request_id self)] else []).
Proof.
  revert self w; induction calls as [|c calls IH]; intros self w.
  - cbn. repeat split; try done. rewrite andb_comm. destruct (closed self); cbn;
      by rewrite app_nil_r.
  - cbn [run]. pose proof (step_release c self w) as Hstep.
    destruct (step c self w) as [self1 w1]. destruct Hstep as (Hid1 & Hmono1 & Htr1).
    specialize (IH self1 w1). destruct (run calls self1 w1) as [self' w'].
    destruct IH as (Hid & Hmono & Htr).
    split; [congruence|]. split; [by auto|].
    rewrite Htr, Htr1, Hid1, <- app_assoc. f_equal.
    destruct (closed self) eqn:Hc; cbn.
    + rewrite (Hmono1 eq_refl). cbn. reflexivity.
    + destruct (closed self1) eqn:Hc1; cbn.
      * by rewrite (Hmono eq_refl).
      * by destruct (closed self').
Qed.

(** C3 (amended).  After any sequence of [next()] and [close()] calls on
    a new wrapper, [exit] has been called once for the request id if the
    wrapper is closed and not at all if it is open.  A terminal event
    closes an open wrapper: an explicit [close()], or a [next()] that
    raises an exception derived from [Exception] (exhaustion of the
    wrapped generator raises [StopIteration], which is one); a [next()]
    that returns a value leaves it open.  On a closed wrapper [next()]
    raises [StopIteration] and [close()] returns, and neither touches the
    wrapped generator, the limiter or the store.  An exception that is not
    derived from [Exception], raised by the wrapped generator, passes
    through [next()] as it is: the wrapper stays open, [exit] is not
    called and nothing is sent to the store. *)
Theorem release_exactly_once calls self w :
  closed self = false →
  let '(self', w') := run calls self w in
  filter is_exit_call (trace w')
  = filter is_exit_call (trace w)
    ++ (if closed self' then [ExitCall (request_id self)] else []) ∧
  closed (close self' w').1.2 = true ∧
  (∀ e : exn, (next self' w').1.1 = Raise e → is_Exception e = true →
              closed (next self' w').1.2 = true) ∧
  (∀ v : string, (next self' w').1.1 = Ok v →
                 closed self' = false ∧ closed (next self' w').1.2 = false) ∧
  (closed self' = true →
     next self' w' = (Raise StopIteration, self', w') ∧
     close self' w' = (Ok tt, self', w')) ∧
  (∀ (g : Generator.t) (e : exn),
     closed self' = false →
     generator self' = Some g →
     (Generator.next g w').1.1 = Raise e →
     is_Exception e = false →
     (next self' w').1.1 = Raise e ∧
     closed (next self' w').1.2 = false ∧
     trace (next self' w').2 = trace w' ++ [GenNext] ∧
     store (next self' w').2 = store w').
Proof.
  intros Hopen. pose proof (run_release calls self w) as Hrun.
  destruct (run calls self w) as [self' w']. destruct Hrun as (_ & _ & Htr).
  rewrite Hopen in Htr. cbn in Htr. split; [exact Htr|]. clear.
  destruct self' as [rl g rid cl].
  split; [|split; [|split; [|split]]].
  - destruct cl; [done|]. wrapper_unfold. wrapper_cases; done.
  - destruct cl; [done|]. wrapper_unfold. wrapper_cases; intros e0 He0 Hex; try done;
      simplify_eq; congruence.
  - destruct cl; [done|]. wrapper_unfold. wrapper_cases; by intros v0 Hv0.
  - apply closed_inert.
  - intros g0 e. cbn [closed generator]. intros -> -> Hraise Hbase.
    unfold next. cbn [closed generator rate_limit request_id].
    unfold Generator.next in *.
    destruct (Generator.body g0) as [|[v|e'] rest]; cbn [fst snd] in *;
      simplify_eq.
    rewrite Hbase. done.
Qed.

(** C6 (amended).  When the wrapped generator raises an exception derived
    from [Exception] during production and the release call completes
    (the ticket is the reserved one, or the limiter has been
    initialised), [next()] raises that same exception, and by then the
    cleanup has run: the wrapper is closed, [exit] has been called for
    the request id, and the close hook of the generator has been invoked
    if it has one. *)
Theorem production_error_reraised self (g : Generator.t) (e : exn) w :
  closed self = false →
  generator self = Some g →
  (Generator.next g w).1.1 = Raise e →
  is_Exception e = true →
  request_id self = RateLimit._UNLIMITED_REQUEST_ID
  ∨ is_Some (RateLimit.attrs (rate_limit self)) →
  let '(r, self', w') := next self w in
  r = Raise e ∧
  closed self' = true ∧
  trace w'
  = trace w
    ++ GenNext :: ExitCall (request_id self)
       :: (if bool_decide (request_id self = RateLimit._UNLIMITED_REQUEST_ID) then []
           else match RateLimit.attrs (rate_limit self) with
                | Some a =>
                    [Redis (HDEL (RateLimit.active_requests_key a) [request_id self])]
                | None => []
                end)
       ++ (if Generator.has_close g then [GenClose] else []).
Proof.
  destruct self as [rl og rid cl]. cbn. intros -> -> Hraise Hex Hrel.
  unfold next. cbn [closed generator].
  destruct (Generator.next g w) as [[r g'] w1] eqn:Hnext. cbn in Hraise. subst r.
  cbn [rate_limit request_id closed]. rewrite Hex.
  assert (Hw1 : w1 = emit GenNext w ∧ Generator.has_close g' = Generator.has_close g).
  { unfold Generator.next in Hnext. destruct (Generator.body g) as [|[v|e'] rest];
      by simplify_eq. }
  destruct Hw1 as [-> Hhc].
  unfold close. cbn [closed rate_limit request_id generator]. unfold RateLimit.exit.
  destruct (bool_decide (rid = RateLimit._UNLIMITED_REQUEST_ID)) eqn:Hs.
  - rewrite Hhc. destruct (Generator.has_close g); cbn; repeat split;
      by rewrite <- ?app_assoc.
  - destruct Hrel as [->|[a Ha]]; [by rewrite bool_decide_eq_true_2 in Hs|].
    rewrite Ha, Hhc. destruct (Generator.has_close g); cbn; repeat split;
      by rewrite <- ?app_assoc.
Qed.

(** C10.  [generate] hands a mapping back as it is and builds no wrapper
    for it, so reading the result changes nothing in the world and calls
    no [exit]; a wrapper is built exactly for the inputs that are not
    mappings, around the limiter, the generator and the request id
    given. *)
Theorem generate_passes_mappings
    (limiter : RateLimit.t) (m : gmap string string) (out : response)
    (request_id : string) (fuel : nat) w :
  generate limiter (Blocking m) request_id = Unwrapped m ∧
  (consume fuel (generate limiter (Blocking m) request_id) w).2 = w ∧
  exit_calls (trace (consume fuel (generate limiter (Blocking m) request_id) w).2)
  = exit_calls (trace w) ∧
  ((∃ wrapper, generate limiter out request_id = Wrapped wrapper)
   ↔ ∃ g, out = Streaming g) ∧
  (∀ g, generate limiter (Streaming g) request_id
        = Wrapped (RateLimitGenerator.mk limiter g request_id false)).
Proof.
  repeat split; try done.
  - intros [wr H]. destruct out as [m'|g]; [discriminate | by eexists].
  - intros [g ->]. by eexists.
Qed.

End WrapperFacts.

(** ** Controllers racing on the store *)

Section RaceFacts.
Import redis_client Interleaving.
Implicit Types (limiter : RateLimit.t) (a : RateLimit.attributes) (w : world).

(** A controller that runs alone performs [enter]: the two steps of the
    machine, taken back to back, are the method of the source. *)
Lemma enter_is_two_steps limiter (request_id : option string) w :
  let '(c1, w1) := step (mk limiter (Calling request_id)) w in
  let '(c2, w2) := step c1 w1 in
  (at_phase c2, self c2, w2)
  = (Returned (RateLimit.enter limiter request_id w).1.1,
     (RateLimit.enter limiter request_id w).1.2,
     (RateLimit.enter limiter request_id w).2).
Proof.
  unfold step, check, register, RateLimit.enter. cbn [at_phase self].
  destruct (RateLimit.disabled limiter); [reflexivity|].
  cbn [time_time].
  destruct (RateLimit.attrs limiter) as [a0|]; [|reflexivity].
  destruct (if RateLimit.elapsed_more_than _ _ _ then _ else _) as [[flushed s] w1].
  destruct flushed as [[]|e]; [|reflexivity].
  destruct (RateLimit.attrs s) as [a|] eqn:Ha; [|reflexivity].
  destruct (if RateLimit.falsy request_id then _ else _) as [rid w2].
  cbn [hlen]. destruct (_ >=? _); [reflexivity|].
  cbn [at_phase self]. rewrite Ha. reflexivity.
Qed.

(** The first step of a controller when no flush is due and the hash has
    room: the check passes and only the count has been read. *)
Lemma check_room limiter a (t0 : Z) (request_id : string) w :
  RateLimit.attrs limiter = Some a →
  0 < RateLimit.max_active_requests limiter →
  RateLimit.last_recalculate_time a = RateLimit.seconds t0 →
  clock w (tick w) - t0 ≤ RateLimit._ACTIVE_REQUESTS_COUNT_FLUSH_INTERVAL →
  request_id ≠ "" →
  Z.of_nat (size (hash_at (RateLimit.active_requests_key a) (store w)))
    < RateLimit.max_active_requests limiter →
  check limiter (Some request_id) w
  = (Checked request_id, limiter,
     mk_world (store w) (clock w) (S (tick w)) (uuid4 w) (drawn w)
       (trace w ++ [Redis (HLEN (RateLimit.active_requests_key a))])
       (reply_order w) (replies w)).
Proof.
  intros Ha Hpos Ht Hdue Hid Hroom.
  unfold check, RateLimit.disabled.
  destruct (Z.leb_spec (RateLimit.max_active_requests limiter) 0) as [|_]; [lia|].
  cbn [time_time]. rewrite Ha, Ht, (elapsed_within _ _ Hdue). cbn -[Z.geb]. rewrite Ha.
  rewrite bool_decide_eq_false_2 by done. cbn -[Z.geb].
  destruct (Z.geb_spec (Z.of_nat (size (hash_at (RateLimit.active_requests_key a) (store w))))
              (RateLimit.max_active_requests limiter)) as [|_]; [lia|].
  reflexivity.
Qed.

(** C8.  The check and the registration of [enter] are two commands.  For
    a client with limit [N > 0] whose hash holds [N - 1] entries, two
    controllers that call [enter] with different new ids, scheduled so
    that both read the count before either writes, are both admitted, and
    the hash then holds [N + 1] entries, more than the limit. *)
Theorem check_and_register_race limiter a (t0 : Z) (id1 id2 : string) w :
  let key := RateLimit.active_requests_key a in
  let N := RateLimit.max_active_requests limiter in
  RateLimit.attrs limiter = Some a →
  0 < N →
  Z.of_nat (size (hash_at key (store w))) = N - 1 →
  RateLimit.last_recalculate_time a = RateLimit.seconds t0 →
  clock w (tick w) - t0 ≤ RateLimit._ACTIVE_REQUESTS_COUNT_FLUSH_INTERVAL →
  clock w (S (tick w)) - t0 ≤ RateLimit._ACTIVE_REQUESTS_COUNT_FLUSH_INTERVAL →
  id1 ≠ "" → id2 ≠ "" → id1 ≠ id2 →
  hash_at key (store w) !! id1 = None →
  hash_at key (store w) !! id2 = None →
  ∃ schedule : list nat,
    let '(cs, w') :=
      run schedule [mk limiter (Calling (Some id1)); mk limiter (Calling (Some id2))] w in
    at_phase <$> cs = [Returned (Ok id1); Returned (Ok id2)] ∧
    self <$> cs = [limiter; limiter] ∧
    Z.of_nat (size (hash_at key (store w'))) = N + 1 ∧
    RateLimit.max_active_requests limiter < Z.of_nat (size (hash_at key (store w'))).
Proof.
  intros key N Ha Hpos Hsize Ht Hdue1 Hdue2 Hne1 Hne2 Hne Hfresh1 Hfresh2.
  exists [0; 1; 0; 1]%nat.
  cbn [run lookup list_lookup list_insert insert]. unfold step at 1. cbn [at_phase self].
  rewrite (check_room limiter a t0 id1 w Ha Hpos Ht Hdue1 Hne1) by (fold key N; lia).
  cbn [list_lookup lookup list_insert insert]. unfold step at 1. cbn [at_phase self].
  rewrite (check_room limiter a t0 id2 _ Ha Hpos Ht) by (cbn; try done; fold key N; lia).
  cbn [list_lookup lookup list_insert insert]. unfold step, register. cbn [at_phase self].
  rewrite Ha. cbn.
  fold key. rewrite !hash_at_put_hash.
  assert (Hsz : size (<[id2:=clock w (S (S (S (tick w))))]>
                        (<[id1:=clock w (S (S (tick w)))]> (hash_at key (store w))))
                = S (S (size (hash_at key (store w))))).
  { rewrite map_size_insert_None by by rewrite lookup_insert_ne.
    by rewrite map_size_insert_None. }
  rewrite Hsz. repeat split; try done; lia.
Qed.

End RaceFacts.

(** ** Runs on concrete inputs *)

Section ScenarioFacts.
Import redis_client.

Lemma appA_keys_differ :
  RateLimit._ACTIVE_REQUESTS_KEY "appA" ≠ RateLimit._MAX_ACTIVE_REQUESTS_KEY "appA".
Proof. discriminate. Qed.

Lemma world_with_hash (h : gmap string Z) (clk : nat → Z) (n : nat) :
  hash_at (RateLimit._ACTIVE_REQUESTS_KEY "appA") (store (Scenario.world_with h clk n)) = h.
Proof.
  unfold hash_at, Scenario.world_with. cbn [store hashes].
  by rewrite lookup_singleton_eq.
Qed.

Lemma world_with_limit_key (h : gmap string Z) (clk : nat → Z) (n : nat) :
  hashes (store (Scenario.world_with h clk n)) !! RateLimit._MAX_ACTIVE_REQUESTS_KEY "appA"
  = None.
Proof.
  unfold Scenario.world_with. cbn [store hashes].
  apply lookup_singleton_ne, appA_keys_differ.
Qed.

Lemma empty_world_hash (key : string) (clk : nat → Z) (uuids : nat → string) :
  hash_at key (store (empty_world clk uuids)) = ∅.
Proof. unfold hash_at, empty_world. cbn [store hashes]. by rewrite lookup_empty. Qed.

(** Where the states of the scenarios come from: the constructor in a new
    process, a first [enter], and a second call of the constructor with
    limit [0]. *)
Lemma construct_run (clk : nat → Z) :
  clk 0%nat = 0 →
  RateLimit.construct "appA" 1 ∅ (empty_world clk Scenario.ids)
  = (Ok tt, Scenario.limiter 1, {[ "appA" := Scenario.limiter 1 ]},
     Scenario.after_construct clk).
Proof.
  intros H0. unfold RateLimit.construct. rewrite lookup_empty.
  unfold RateLimit.init, RateLimit.flush_cache.
  change (RateLimit.disabled _) with false.
  cbn [RateLimit.attrs time_time empty_world tick clock]. rewrite H0.
  unfold setex, RateLimit.flush_active_requests, exists_, key_exists, emit, with_store.
  cbn [empty_world store strings hashes clock tick uuid4 drawn trace
         RateLimit.active_requests_key RateLimit.with_last_recalculate_time
         RateLimit.max_active_requests_key RateLimit.max_active_requests app].
  rewrite lookup_insert_ne by apply not_eq_sym, appA_keys_differ.
  rewrite !lookup_empty.
  rewrite !bool_decide_eq_false_2 by (intros [? ?]; discriminate).
  cbn [orb negb]. rewrite !insert_empty. reflexivity.
Qed.

Lemma after_construct_hash (clk : nat → Z) :
  hash_at (RateLimit._ACTIVE_REQUESTS_KEY "appA") (store (Scenario.after_construct clk)) = ∅.
Proof.
  unfold hash_at, Scenario.after_construct. cbn [store hashes]. by rewrite lookup_empty.
Qed.

Lemma first_ticket_run (clk : nat → Z) :
  clk 1%nat ≤ RateLimit._ACTIVE_REQUESTS_COUNT_FLUSH_INTERVAL →
  RateLimit.enter (Scenario.limiter 1) (Some "r1") (Scenario.after_construct clk)
  = (Ok "r1", Scenario.limiter 1, Scenario.after_first_ticket clk).
Proof.
  intros H1.
  rewrite (enter_room (Scenario.limiter 1) (Scenario.appA 0) 0 (Some "r1")
             (Scenario.after_construct clk) eq_refl eq_refl eq_refl).
  - change (RateLimit.active_requests_key (Scenario.appA 0))
      with (RateLimit._ACTIVE_REQUESTS_KEY "appA").
    rewrite after_construct_hash.
    unfold put_hash. rewrite decide_False by apply insert_non_empty.
    unfold Scenario.after_construct, Scenario.after_first_ticket.
    cbn [store strings hashes clock tick uuid4 drawn trace app].
    rewrite !insert_empty. reflexivity.
  - cbn [Scenario.after_construct clock tick]. lia.
  - change (RateLimit.active_requests_key (Scenario.appA 0))
      with (RateLimit._ACTIVE_REQUESTS_KEY "appA").
    rewrite after_construct_hash, map_size_empty. reflexivity.
Qed.

Lemma limiter_lowered (w : world) :
  RateLimit.init (Scenario.limiter 1) "appA" 0 w = (Ok tt, Scenario.limiter 0, w).
Proof. reflexivity. Qed.

Lemma after_first_ticket_hash (clk : nat → Z) :
  hash_at (RateLimit._ACTIVE_REQUESTS_KEY "appA") (store (Scenario.after_first_ticket clk))
  = {[ "r1" := clk 2%nat ]}.
Proof.
  unfold hash_at, Scenario.after_first_ticket. cbn [store hashes].
  by rewrite lookup_singleton_eq.
Qed.

Lemma after_first_ticket_limit_key (clk : nat → Z) :
  hashes (store (Scenario.after_first_ticket clk)) !! RateLimit._MAX_ACTIVE_REQUESTS_KEY "appA"
  = None ∧
  strings (store (Scenario.after_first_ticket clk)) !! RateLimit._MAX_ACTIVE_REQUESTS_KEY "appA"
  = Some 1.
Proof.
  unfold Scenario.after_first_ticket. cbn [store hashes strings]. split.
  - apply lookup_singleton_ne, appA_keys_differ.
  - apply lookup_singleton_eq.
Qed.

End ScenarioFacts.

(** C1, witness: limit [1] and ["r1"] admitted at time [2], in the world
    left by [RateLimit("appA", 1)] and [enter("r1")].  [enter("r2")] is
    refused at time [3]; after [exit("r1")] it is admitted and registered
    at time [5]. *)
Lemma enter_at_capacity_witness :
  let limiter := Scenario.limiter 1 in
  let w := Scenario.after_first_ticket Z.of_nat in
  let key := RateLimit._ACTIVE_REQUESTS_KEY "appA" in
  Z.of_nat (size (redis_client.hash_at key (store w))) = 1 ∧
  let '(r1, self1, w1) := RateLimit.enter limiter (Some "r2") w in
  let '(r2, w2) := RateLimit.exit self1 "r1" w1 in
  let '(r3, self3, w3) := RateLimit.enter self1 (Some "r2") w2 in
  r1 = Raise (AppInvokeQuotaExceededError (RateLimit.too_many_requests "appA" 1)) ∧
  store w1 = store w ∧
  redis_client.hash_at key (store w2) = delete "r1" (redis_client.hash_at key (store w)) ∧
  r3 = Ok "r2" ∧
  redis_client.hash_at key (store w3) !! "r2" = Some 5.
Proof.
  intros limiter w key.
  assert (Hsize : Z.of_nat (size (redis_client.hash_at key (store w))) = 1).
  { unfold key, w. by rewrite after_first_ticket_hash, map_size_singleton. }
  split; [exact Hsize|].
  apply (enter_at_capacity limiter (Scenario.appA 0) 0 (Some "r2") (Some "r2") "r1" w).
  - reflexivity.
  - reflexivity.
  - exact Hsize.
  - reflexivity.
  - discriminate.
  - discriminate.
  - discriminate.
  - change (RateLimit.active_requests_key (Scenario.appA 0)) with key.
    unfold key, w. rewrite after_first_ticket_hash, lookup_singleton_eq. by eexists.
Defined.

(** C1, as stated: limit [1]; [RateLimit("appA", 1)] at time [0] and
    [enter("r1")] have left the one entry ["r1"], issued at time [2], in the
    hash.  At time [1000] a flush is due: [enter("r2")] runs it first, the
    entry is older than ten minutes and is deleted, and the call is
    admitted. *)
Lemma stale_entry_is_flushed_before_the_check :
  ¬ (∀ (self : RateLimit.t) (a : RateLimit.attributes) (request_id : option string)
       (w : world),
       RateLimit.attrs self = Some a →
       0 < RateLimit.max_active_requests self →
       Z.of_nat (size (redis_client.hash_at (RateLimit.active_requests_key a) (store w)))
       = RateLimit.max_active_requests self →
       ∃ description,
         (RateLimit.enter self request_id w).1.1
         = Raise (AppInvokeQuotaExceededError description)).
Proof.
  intros H.
  set (w := Scenario.after_first_ticket Scenario.late).
  assert (Hkey : RateLimit.active_requests_key (Scenario.appA 0)
                 = RateLimit._ACTIVE_REQUESTS_KEY "appA") by reflexivity.
  destruct (after_first_ticket_limit_key Scenario.late) as [Hty Hlimit].
  destruct (H (Scenario.limiter 1) (Scenario.appA 0) (Some "r2") w)
    as [description Hraise].
  - reflexivity.
  - reflexivity.
  - rewrite Hkey. unfold w. by rewrite after_first_ticket_hash, map_size_singleton.
  - pose proof (enter_flush_due (Scenario.limiter 1) (Scenario.appA 0) 0 (Some "r2") w
                  eq_refl eq_refl eq_refl eq_refl Hty) as Henter.
    cbv zeta in Henter. rewrite Hraise, Hkey in Henter.
    change (RateLimit.max_active_requests_key (Scenario.appA 0))
      with (RateLimit._MAX_ACTIVE_REQUESTS_KEY "appA") in Henter.
    unfold w in Henter. rewrite after_first_ticket_hash, Hlimit in Henter.
    change (reply_order (Scenario.after_first_ticket ?c) ?n ?h)
      with (map_to_list h) in Henter.
    rewrite map_to_list_singleton in Henter.
    change (RateLimit.timed_out_keys _ _ [("r1", Scenario.late 2)]) with ["r1"] in Henter.
    rewrite hdel_fields_one, delete_singleton_eq, map_size_empty in Henter.
    discriminate Henter.
Qed.

(** C4, witness: a limiter built with limit [0]. *)
Lemma disabled_limiter_leaves_store_alone_witness :
  let limiter := RateLimit.mk 0 None in
  let w := empty_world Z.of_nat Scenario.ids in
  RateLimit.disabled limiter = true ∧
  RateLimit.enter limiter None w = (Ok RateLimit._UNLIMITED_REQUEST_ID, limiter, w) ∧
  RateLimit.exit limiter RateLimit._UNLIMITED_REQUEST_ID w
  = (Ok tt, emit (ExitCall RateLimit._UNLIMITED_REQUEST_ID) w) ∧
  (RateLimit.attrs limiter = None →
     snd (RateLimit.exit limiter "r1" w) = emit (ExitCall "r1") w).
Proof.
  intros limiter w. split; [reflexivity|].
  apply (disabled_limiter_leaves_store_alone limiter None "r1" w). reflexivity.
Defined.

(** C4, as stated: after [RateLimit("appA", 1)] and [enter("r1")], a call
    [RateLimit("appA", 0)] sets the limit of the same object to zero.  The
    limiter is disabled, and [exit("r1")] sends [HDEL]. *)
Lemma exit_on_disabled_limiter_reaches_store :
  ¬ (∀ (self : RateLimit.t) (request_id : string) (w : world),
       RateLimit.disabled self = true →
       filter is_redis (trace (RateLimit.exit self request_id w).2)
       = filter is_redis (trace w)).
Proof.
  intros H.
  specialize (H (Scenario.limiter 0) "r1" (Scenario.after_first_ticket Z.of_nat) eq_refl).
  rewrite (exit_registered (Scenario.limiter 0) (Scenario.appA 0) "r1" _ eq_refl) in H
    by discriminate.
  cbn [snd trace Scenario.after_first_ticket app] in H.
  discriminate H.
Qed.

(** C5, witness: tickets issued eleven minutes and one minute ago; after
    [flush_cache] only the second remains.  With a clock that moves during
    the scan the order of the reply decides: the ticket ["b"] is kept when
    it is examined first, at [1000], and deleted when it is examined
    second, at [1001].  With limit [0] nothing happens. *)
Lemma flush_cache_prunes_witness :
  let limiter := Scenario.limiter 2 in
  let w := Scenario.world_with Scenario.two_tickets (λ _, 1000) 0 in
  let key := RateLimit._ACTIVE_REQUESTS_KEY "appA" in
  let moving := Scenario.world_with Scenario.boundary_tickets (Scenario.moving 999) 0 in
  let b_first := Scenario.answering [("b", 400); ("a", 900)] moving in
  let b_second := Scenario.answering [("a", 900); ("b", 400)] moving in
  RateLimit.disabled limiter = false ∧
  redis_client.hash_at key (store w) = <[ "old" := 340 ]> {[ "new" := 940 ]} ∧
  redis_client.hash_at key (store (RateLimit.flush_cache limiter false w).2)
  = {[ "new" := 940 ]} ∧
  redis_client.hash_at key (store (RateLimit.flush_cache limiter false b_first).2) !! "b"
  = Some 400 ∧
  redis_client.hash_at key (store (RateLimit.flush_cache limiter false b_second).2) !! "b"
  = None ∧
  RateLimit.flush_cache (Scenario.limiter 0) false w = (Ok tt, Scenario.limiter 0, w).
Proof.
  intros limiter w key moving b_first b_second.
  assert (Hab : map_to_list Scenario.boundary_tickets ≡ₚ [("a", 900); ("b", 400)]).
  { unfold Scenario.boundary_tickets.
    rewrite map_to_list_insert by (by apply lookup_singleton_ne).
    by rewrite map_to_list_singleton. }
  split; [reflexivity|]. split; [apply world_with_hash|].
  split; [|split; [|split]].
  - pose proof (proj2 (flush_cache_prunes limiter (Scenario.appA 0) false w)
                  eq_refl eq_refl
                  (world_with_limit_key Scenario.two_tickets (λ _, 1000) 0)) as H.
    assert (Hperm : lists_fields
                      (redis_client.hash_at (RateLimit.active_requests_key (Scenario.appA 0))
                         (store w)) w) by (unfold lists_fields; reflexivity).
    specialize (H Hperm).
    destruct (RateLimit.flush_cache limiter false w) as [[r s] w'].
    destruct H as (_ & _ & _ & H). cbn [snd].
    change (RateLimit.active_requests_key (Scenario.appA 0)) with key in H.
    rewrite (H 1000 (λ _ _, eq_refl)).
    unfold key, w. rewrite world_with_hash. unfold Scenario.two_tickets.
    rewrite map_filter_insert_False by (unfold RateLimit._REQUEST_MAX_ALIVE_TIME; cbn; lia).
    rewrite delete_singleton_ne by discriminate.
    apply map_filter_singleton_True. unfold RateLimit._REQUEST_MAX_ALIVE_TIME. cbn. lia.
  - pose proof (proj2 (flush_cache_prunes limiter (Scenario.appA 0) false b_first)
                  eq_refl eq_refl
                  (world_with_limit_key Scenario.boundary_tickets (Scenario.moving 999) 0)) as H.
    assert (Hperm : lists_fields
                      (redis_client.hash_at (RateLimit.active_requests_key (Scenario.appA 0))
                         (store b_first)) b_first).
    { unfold lists_fields.
      change ([("b", 400); ("a", 900)]
              ≡ₚ map_to_list (redis_client.hash_at key (store moving))).
      unfold key, moving. rewrite world_with_hash, Hab. apply perm_swap. }
    specialize (H Hperm).
    destruct (RateLimit.flush_cache limiter false b_first) as [[r s] w'].
    destruct H as (_ & _ & H & _). cbn [snd].
    change (RateLimit.active_requests_key (Scenario.appA 0)) with key in H.
    rewrite (H 0%nat "b" 400 eq_refl).
    apply decide_False. unfold RateLimit._REQUEST_MAX_ALIVE_TIME.
    change (clock b_first (S (tick b_first) + 0)) with (999 + Z.of_nat 1). lia.
  - pose proof (proj2 (flush_cache_prunes limiter (Scenario.appA 0) false b_second)
                  eq_refl eq_refl
                  (world_with_limit_key Scenario.boundary_tickets (Scenario.moving 999) 0)) as H.
    assert (Hperm : lists_fields
                      (redis_client.hash_at (RateLimit.active_requests_key (Scenario.appA 0))
                         (store b_second)) b_second).
    { unfold lists_fields.
      change ([("a", 900); ("b", 400)]
              ≡ₚ map_to_list (redis_client.hash_at key (store moving))).
      unfold key, moving. by rewrite world_with_hash, Hab. }
    specialize (H Hperm).
    destruct (RateLimit.flush_cache limiter false b_second) as [[r s] w'].
    destruct H as (_ & _ & H & _). cbn [snd].
    change (RateLimit.active_requests_key (Scenario.appA 0)) with key in H.
    rewrite (H 1%nat "b" 400 eq_refl).
    apply decide_True. unfold RateLimit._REQUEST_MAX_ALIVE_TIME.
    change (clock b_second (S (tick b_second) + 1)) with (999 + Z.of_nat 2). lia.
  - apply (proj1 (flush_cache_prunes (Scenario.limiter 0) (Scenario.appA 0) false w)).
    reflexivity.
Defined.

(** C5, as stated: after [RateLimit("appA", 1)] and [enter("r1")] at time
    [2], a call [RateLimit("appA", 0)] has lowered the limit to zero.  At
    time [1000] [flush_cache] returns at once and the entry stays. *)
Lemma flush_cache_on_disabled_limiter_keeps_stale_entry :
  ¬ (∀ (self : RateLimit.t) (a : RateLimit.attributes) (use_local_value : bool)
       (w : world) (now : Z),
       RateLimit.attrs self = Some a →
       (∀ n : nat, (tick w ≤ n)%nat → clock w n = now) →
       redis_client.hash_at (RateLimit.active_requests_key a)
         (store (RateLimit.flush_cache self use_local_value w).2)
       = filter (λ p, now - p.2 ≤ RateLimit._REQUEST_MAX_ALIVE_TIME)
           (redis_client.hash_at (RateLimit.active_requests_key a) (store w))).
Proof.
  intros H.
  specialize (H (Scenario.limiter 0) (Scenario.appA 0) false
                (Scenario.after_first_ticket Scenario.late) 1000 eq_refl).
  assert (Hclock : ∀ n : nat,
             (tick (Scenario.after_first_ticket Scenario.late) ≤ n)%nat →
             clock (Scenario.after_first_ticket Scenario.late) n = 1000).
  { intros n Hn. cbn [Scenario.after_first_ticket tick clock] in *.
    unfold Scenario.late. destruct (Nat.ltb_spec n 3); [lia | reflexivity]. }
  specialize (H Hclock).
  change (RateLimit.flush_cache (Scenario.limiter 0) false ?w)
    with (Ok tt, Scenario.limiter 0, w) in H.
  cbn [snd] in H.
  change (RateLimit.active_requests_key (Scenario.appA 0))
    with (RateLimit._ACTIVE_REQUESTS_KEY "appA") in H.
  rewrite after_first_ticket_hash in H.
  rewrite map_filter_singleton_False in H
    by (unfold RateLimit._REQUEST_MAX_ALIVE_TIME; cbn; lia).
  apply (f_equal (λ h : gmap string Z, h !! "r1")) in H.
  rewrite lookup_singleton_eq, lookup_empty in H. discriminate H.
Qed.

(** C3, witness: a generator of three items is read to exhaustion, read
    again and closed.  [exit] is called once, after the third item, when the
    fourth [next()] meets the end.  A generator that yields one item and
    then raises [KeyboardInterrupt]: the second [next()] raises it, and the
    wrapper is open as before. *)
Lemma release_exactly_once_witness :
  let w := empty_world Z.of_nat Scenario.ids in
  let self := RateLimitGenerator.init (Scenario.limiter 1) (Some Scenario.three_items) "r1" in
  let calls :=
    [RateLimitGenerator.Next; RateLimitGenerator.Next; RateLimitGenerator.Next;
     RateLimitGenerator.Next; RateLimitGenerator.Next; RateLimitGenerator.Close] in
  RateLimitGenerator.closed self = false ∧
  (let '(self', w') := RateLimitGenerator.run calls self w in
   filter is_exit_call (trace w')
   = filter is_exit_call (trace w)
     ++ (if RateLimitGenerator.closed self'
         then [ExitCall (RateLimitGenerator.request_id self)] else []) ∧
   RateLimitGenerator.closed (RateLimitGenerator.close self' w').1.2 = true ∧
   (∀ e : exn, (RateLimitGenerator.next self' w').1.1 = Raise e → is_Exception e = true →
               RateLimitGenerator.closed (RateLimitGenerator.next self' w').1.2 = true) ∧
   (∀ v : string, (RateLimitGenerator.next self' w').1.1 = Ok v →
                  RateLimitGenerator.closed self' = false ∧
                  RateLimitGenerator.closed (RateLimitGenerator.next self' w').1.2 = false) ∧
   (RateLimitGenerator.closed self' = true →
      RateLimitGenerator.next self' w' = (Raise StopIteration, self', w') ∧
      RateLimitGenerator.close self' w' = (Ok tt, self', w')) ∧
   (∀ (g : Generator.t) (e : exn),
      RateLimitGenerator.closed self' = false →
      RateLimitGenerator.generator self' = Some g →
      (Generator.next g w').1.1 = Raise e →
      is_Exception e = false →
      (RateLimitGenerator.next self' w').1.1 = Raise e ∧
      RateLimitGenerator.closed (RateLimitGenerator.next self' w').1.2 = false ∧
      trace (RateLimitGenerator.next self' w').2 = trace w' ++ [GenNext] ∧
      store (RateLimitGenerator.next self' w').2 = store w')) ∧
  trace (RateLimitGenerator.run calls self w).2
  = [GenNext; GenNext; GenNext; GenNext; ExitCall "r1";
     Redis (HDEL (RateLimit._ACTIVE_REQUESTS_KEY "appA") ["r1"]); GenClose] ∧
  (let interrupted :=
     Scenario.wrap (Scenario.limiter 1)
       [Generator.Yield "a"; Generator.Throw (PyBaseException "KeyboardInterrupt")] in
   let '(self', w') := RateLimitGenerator.run [RateLimitGenerator.Next] interrupted w in
   (RateLimitGenerator.next self' w').1.1 = Raise (PyBaseException "KeyboardInterrupt") ∧
   RateLimitGenerator.closed (RateLimitGenerator.next self' w').1.2 = false ∧
   trace (RateLimitGenerator.next self' w').2 = [GenNext; GenNext] ∧
   store (RateLimitGenerator.next self' w').2 = store w').
Proof.
  intros w self calls. split; [reflexivity|]. split; [|split].
  - apply (release_exactly_once calls self w). reflexivity.
  - reflexivity.
  - intros interrupted.
    pose proof (release_exactly_once [RateLimitGenerator.Next] interrupted w eq_refl) as H.
    destruct (RateLimitGenerator.run [RateLimitGenerator.Next] interrupted w)
      as [self' w'] eqn:Hrun.
    injection Hrun as <- <-.
    destruct H as (_ & _ & _ & _ & _ & H).
    exact (H (Generator.mk [Generator.Throw (PyBaseException "KeyboardInterrupt")] true)
             (PyBaseException "KeyboardInterrupt") eq_refl eq_refl eq_refl eq_refl).
Defined.

(** C3, as stated: the wrapped generator raises [KeyboardInterrupt], which
    is not derived from [Exception].  The handler of [__next__] does not
    catch it: the wrapper stays open and [exit] is not called. *)
Lemma base_exception_skips_release :
  ¬ (∀ (self : RateLimitGenerator.t) (w : world) (e : exn),
       RateLimitGenerator.closed self = false →
       (RateLimitGenerator.next self w).1.1 = Raise e →
       RateLimitGenerator.closed (RateLimitGenerator.next self w).1.2 = true ∧
       exit_calls (trace (RateLimitGenerator.next self w).2) = S (exit_calls (trace w))).
Proof.
  intros H.
  destruct (H (Scenario.wrap (Scenario.limiter 1)
                 [Generator.Throw (PyBaseException "KeyboardInterrupt")])
              (empty_world Z.of_nat Scenario.ids)
              (PyBaseException "KeyboardInterrupt") eq_refl eq_refl) as [Hclosed _].
  discriminate Hclosed.
Qed.

(** C6, witness: the generator raises [ValueError] on the first read. *)
Lemma production_error_reraised_witness :
  let w := empty_world Z.of_nat Scenario.ids in
  let self := Scenario.wrap (Scenario.limiter 1) [Generator.Throw (PyException "ValueError")] in
  RateLimitGenerator.closed self = false ∧
  is_Exception (PyException "ValueError") = true ∧
  let '(r, self', w') := RateLimitGenerator.next self w in
  r = Raise (PyException "ValueError") ∧
  RateLimitGenerator.closed self' = true ∧
  trace w'
  = trace w ++ [GenNext; ExitCall "r1";
                Redis (HDEL (RateLimit._ACTIVE_REQUESTS_KEY "appA") ["r1"]); GenClose].
Proof.
  intros w self. split; [reflexivity|]. split; [reflexivity|].
  apply (production_error_reraised self
           (Generator.mk [Generator.Throw (PyException "ValueError")] true)
           (PyException "ValueError") w eq_refl eq_refl eq_refl eq_refl
           (or_intror (mk_is_Some _ _ eq_refl))).
Defined.

(** C6, as stated.  First, a [KeyboardInterrupt] raised by the generator
    reaches the caller without any cleanup.  Second, on a limiter that has
    never been enabled and a ticket that is not the reserved one, [exit]
    raises [AttributeError] inside the handler, and the caller gets that
    instead of the [ValueError] of the generator. *)
Lemma cleanup_skipped_or_error_replaced :
  (let self := Scenario.wrap (Scenario.limiter 1)
                 [Generator.Throw (PyBaseException "KeyboardInterrupt")] in
   let w := empty_world Z.of_nat Scenario.ids in
   (RateLimitGenerator.next self w).1.1 = Raise (PyBaseException "KeyboardInterrupt") ∧
   RateLimitGenerator.closed (RateLimitGenerator.next self w).1.2 = false ∧
   exit_calls (trace (RateLimitGenerator.next self w).2) = exit_calls (trace w)) ∧
  (let self := Scenario.wrap (RateLimit.mk 0 None)
                 [Generator.Throw (PyException "ValueError")] in
   let w := empty_world Z.of_nat Scenario.ids in
   (Generator.next (Generator.mk [Generator.Throw (PyException "ValueError")] true) w).1.1
   = Raise (PyException "ValueError") ∧
   (RateLimitGenerator.next self w).1.1 = Raise (AttributeError "active_requests_key")).
Proof. repeat split. Qed.

(** C8, witness: limit [1], the empty hash left by [RateLimit("appA", 1)],
    two controllers. *)
Lemma check_and_register_race_witness :
  let limiter := Scenario.limiter 1 in
  let w := Scenario.after_construct Z.of_nat in
  let key := RateLimit._ACTIVE_REQUESTS_KEY "appA" in
  Z.of_nat (size (redis_client.hash_at key (store w))) = 1 - 1 ∧
  ∃ schedule : list nat,
    let '(cs, w') :=
      Interleaving.run schedule
        [Interleaving.mk limiter (Interleaving.Calling (Some "r1"));
         Interleaving.mk limiter (Interleaving.Calling (Some "r2"))] w in
    Interleaving.at_phase <$> cs
    = [Interleaving.Returned (Ok "r1"); Interleaving.Returned (Ok "r2")] ∧
    Interleaving.self <$> cs = [limiter; limiter] ∧
    Z.of_nat (size (redis_client.hash_at key (store w'))) = 1 + 1 ∧
    RateLimit.max_active_requests limiter
    < Z.of_nat (size (redis_client.hash_at key (store w'))).
Proof.
  intros limiter w key.
  assert (Hempty : redis_client.hash_at key (store w) = ∅) by apply after_construct_hash.
  assert (Hkey : RateLimit.active_requests_key (Scenario.appA 0) = key) by reflexivity.
  split; [by rewrite Hempty, map_size_empty|].
  apply (check_and_register_race limiter (Scenario.appA 0) 0 "r1" "r2" w).
  - reflexivity.
  - reflexivity.
  - by rewrite Hkey, Hempty, map_size_empty.
  - reflexivity.
  - discriminate.
  - discriminate.
  - discriminate.
  - discriminate.
  - discriminate.
  - by rewrite Hkey, Hempty, lookup_empty.
  - by rewrite Hkey, Hempty, lookup_empty.
Defined.

(** * Further properties *)

(** ** Slots across requests *)

Section SlotRequests.
Context {T : Type}.
Import RecyclableContextVar.
Implicit Types (c : context T) (ops view : list (op T)).

Local Ltac req_simpl := cbn -[Z.ltb Z.eqb Z.gtb Z.add] in *.

Local Ltac req_unfold :=
  unfold app_factory.before_request, step, set, get, catch_up, increment_thread_recycles,
    with_updates, with_thread_recycles, self_updates, thread_recycles, declared,
    counter_bound, ContextVar.get, ContextVar.get_or, ContextVar.set in *; req_simpl;
  rewrite ?Z.gtb_ltb in *.

Local Ltac req_cases :=
  repeat match goal with
    | |- context [?a <? ?b] => destruct (Z.ltb_spec0 a b); req_simpl
    | |- context [?a =? ?b] => destruct (Z.eqb_spec a b); req_simpl
    | H : context [?a <? ?b] |- _ => destruct (Z.ltb_spec0 a b); req_simpl
    | H : context [?a =? ?b] |- _ => destruct (Z.eqb_spec a b); req_simpl
    end.

Lemma get_stays_stale (d : option T) c :
  self_updates c ≤ thread_recycles c →
  self_updates (snd (get d c)) ≤ thread_recycles (snd (get d c)).
Proof.
  destruct c as [[dr vr] [du vu] cv]. destruct vr, vu, du, d; req_unfold; intros;
    req_cases; lia.
Qed.

Lemma get_keeps_var (d : option T) c : _context_var (snd (get d c)) = _context_var c.
Proof.
  destruct c as [[dr vr] [du vu] cv]. destruct vr, vu, du, d; req_unfold; req_cases; done.
Qed.

Lemma alike_get (d : option T) c c' :
  alike c c' →
  fst (get d c) = fst (get d c') ∧ alike (snd (get d c)) (snd (get d c')).
Proof.
  intros [[H1 H2]|(H1 & H2 & H3)].
  - rewrite (get_stale d c H1), (get_stale d c' H2). split; [done|].
    left. split; by apply get_stays_stale.
  - rewrite (get_armed d c H1), (get_armed d c' H2). split; [done|].
    destruct (get_armed_state d c H1) as (Hu & Hr & _).
    destruct (get_armed_state d c' H2) as (Hu' & Hr' & _).
    right. rewrite Hu, Hr, Hu', Hr', !get_keeps_var. done.
Qed.

Lemma alike_set (v : T) c c' : alike c c' → alike (set v c) (set v c').
Proof.
  intros _. destruct (set_arms v c) as [H1 H2], (set_arms v c') as [H1' H2'].
  right. by rewrite H2, H2'.
Qed.

Lemma alike_answers view c c' :
  Forall (λ o, ¬ is_increment o) view →
  alike c c' →
  answers view c = answers view c'.
Proof.
  intros Hview; revert c c'; induction Hview as [|o view Ho _ IH]; intros c c' Hal; [done|].
  destruct o as [d|v|]; cbn [answers step].
  - destruct (alike_get d c c' Hal) as [-> Hal']. f_equal. by apply IH.
  - apply IH. by apply alike_set.
  - by destruct Ho.
Qed.

Lemma step_keeps_bound (o : op T) c : counter_bound c → counter_bound (step o c).
Proof.
  destruct c as [[dr vr] [du vu] cv]. intros [r Hr]. cbn in Hr. subst vr.
  destruct o as [[d|]|v|]; destruct dr, vu, du; req_unfold; req_cases; by eexists.
Qed.

Lemma between_requests_init (cv : ContextVar.t T) : between_requests (init cv).
Proof. split; [apply declared_init|]. split; [by compute | right; by compute]. Qed.

Lemma hook_makes_stale c :
  between_requests c →
  declared (app_factory.before_request c) ∧
  counter_bound (app_factory.before_request c) ∧
  self_updates (app_factory.before_request c) ≤ thread_recycles (app_factory.before_request c).
Proof.
  destruct c as [[dr vr] [du vu] cv]. intros ([Hd1 Hd2] & Hle & Hb). cbn in Hd1, Hd2. subst.
  destruct vr, vu; req_unfold; (repeat split; [by eexists|]);
    destruct Hb as [[? Hb]|Hb]; try discriminate; lia.
Qed.

Lemma view_keeps_between view c :
  declared c → counter_bound c → self_updates c ≤ thread_recycles c + 1 →
  between_requests (run view c).
Proof.
  revert c; induction view as [|o view IH]; intros c Hd Hb Hle.
  - split; [done|]. split; [done | by left].
  - apply IH; [by apply declared_step | by apply step_keeps_bound | by apply ahead_step].
Qed.

Lemma serve_request_keeps view c :
  between_requests c → between_requests (app_factory.serve_request view c).
Proof.
  intros Hc. destruct (hook_makes_stale c Hc) as (Hd & Hb & Hst).
  apply view_keeps_between; [done | done | lia].
Qed.

Lemma serve_keeps (views : list (list (op T))) c :
  between_requests c → between_requests (app_factory.serve views c).
Proof.
  revert c; induction views as [|view views IH]; intros c Hc; [done|].
  apply IH, serve_request_keeps, Hc.
Qed.

(** X1.  With the hook of [app_factory] in place, what a view reads from a
    slot does not depend on the requests the worker has served before in
    the same context: its [get] calls return what they would return in a
    new context.  The views call [get] and [set] only; the hook is the
    framework's to call. *)
Theorem request_isolation
    (cv : ContextVar.t T) (views : list (list (op T))) view :
  Forall (λ o, ¬ is_increment o) view →
  answers view (app_factory.before_request (app_factory.serve views (init cv)))
  = answers view (app_factory.before_request (init cv)).
Proof.
  intros Hview. apply alike_answers; [done|]. left. split.
  - apply hook_makes_stale, serve_keeps, between_requests_init.
  - apply hook_makes_stale, between_requests_init.
Qed.

(** X2.  Calling the hook more than once before a request changes nothing
    for the view: after [n + 1] calls its [get] calls return what they
    return after one. *)
Theorem extra_hook_calls_are_harmless
    (cv : ContextVar.t T) (views : list (list (op T))) view (n : nat) :
  Forall (λ o, ¬ is_increment o) view →
  answers view (Nat.iter (S n) app_factory.before_request (app_factory.serve views (init cv)))
  = answers view (app_factory.before_request (app_factory.serve views (init cv))).
Proof.
  intros Hview. apply alike_answers; [done|]. left. split.
  - pose proof (serve_keeps views _ (between_requests_init cv)) as Hc.
    induction n as [|n IH].
    + apply hook_makes_stale, Hc.
    + change (Nat.iter (S (S n)) ?f ?x) with (f (Nat.iter (S n) f x)).
      assert (Hb : between_requests
                     (Nat.iter (S n) app_factory.before_request
                        (app_factory.serve views (init cv)))).
      { clear IH. induction n as [|n IHn].
        - destruct (hook_makes_stale _ Hc) as (? & ? & ?).
          split; [done|]. split; [cbn in *; lia | by left].
        - change (Nat.iter (S (S n)) ?f ?x) with (f (Nat.iter (S n) f x)).
          destruct (hook_makes_stale _ IHn) as (? & ? & ?).
          split; [done|]. split; [lia | by left]. }
      apply hook_makes_stale, Hb.
  - apply hook_makes_stale, serve_keeps, between_requests_init.
Qed.

(** X3.  [get] is repeatable: a second [get] returns what the first one
    would have returned with the same default and leaves the context as the
    first one left it; and no [get] changes the recycle counter or the
    wrapped variable. *)
Theorem get_is_repeatable (d d' : option T) c :
  fst (get d (snd (get d' c))) = fst (get d c) ∧
  snd (get d (snd (get d' c))) = snd (get d' c) ∧
  _thread_recycles (snd (get d' c)) = _thread_recycles c ∧
  _context_var (snd (get d' c)) = _context_var c.
Proof.
  destruct c as [[dr vr] [du vu] cv].
  destruct vr, vu, du, d, d'; req_unfold; req_cases; repeat split; try done; lia.
Qed.

End SlotRequests.

(** X1, witness: a request stores a value and reads it; the next request on
    the same worker reads, stores its own value and reads again. *)
Lemma request_isolation_witness :
  let earlier := [[RecyclableContextVar.OpSet "tenant-1"; RecyclableContextVar.OpGet None]] in
  let view := [RecyclableContextVar.OpGet None; RecyclableContextVar.OpSet "tenant-2";
               RecyclableContextVar.OpGet None] in
  Forall (λ o, ¬ RecyclableContextVar.is_increment o) view ∧
  RecyclableContextVar.answers view
    (app_factory.before_request
       (app_factory.serve earlier (RecyclableContextVar.init (ContextVar.new None))))
  = RecyclableContextVar.answers view
      (app_factory.before_request (RecyclableContextVar.init (ContextVar.new None))) ∧
  RecyclableContextVar.answers view
    (app_factory.before_request
       (app_factory.serve earlier (RecyclableContextVar.init (ContextVar.new None))))
  = [Raise LookupError; Ok "tenant-2"].
Proof.
  intros earlier view.
  assert (Hview : Forall (λ o, ¬ RecyclableContextVar.is_increment o) view).
  { repeat constructor; by intros []. }
  split; [exact Hview|]. split.
  - apply (request_isolation (ContextVar.new None) earlier view Hview).
  - reflexivity.
Defined.

(** X2, witness: three calls of the hook before the second request. *)
Lemma extra_hook_calls_are_harmless_witness :
  let earlier := [[RecyclableContextVar.OpSet "tenant-1"]] in
  let view := [RecyclableContextVar.OpGet (Some "none")] in
  Forall (λ o, ¬ RecyclableContextVar.is_increment o) view ∧
  RecyclableContextVar.answers view
    (Nat.iter 3 app_factory.before_request
       (app_factory.serve earlier (RecyclableContextVar.init (ContextVar.new None))))
  = RecyclableContextVar.answers view
      (app_factory.before_request
         (app_factory.serve earlier (RecyclableContextVar.init (ContextVar.new None)))).
Proof.
  intros earlier view.
  assert (Hview : Forall (λ o, ¬ RecyclableContextVar.is_increment o) view).
  { repeat constructor; by intros []. }
  split; [exact Hview|].
  apply (extra_hook_calls_are_harmless (ContextVar.new None) earlier view 2 Hview).
Defined.

(** ** Two slots in one context *)

Section TwoSlots.
Context {A B : Type}.
Import RecyclableContextVar.

Lemma step_keeps_recycles (o : op A) (c : context A) :
  ¬ is_increment o → _thread_recycles (step o c) = _thread_recycles c.
Proof.
  destruct c as [[dr vr] [du vu] cv].
  destruct o as [[d|]|v|]; [| | |by intros []]; intros _;
    unfold step, get, set, catch_up, with_updates, self_updates, thread_recycles,
      ContextVar.get, ContextVar.get_or; cbn -[Z.ltb Z.eqb Z.gtb Z.add];
    repeat match goal with
      | |- context [if ?b then _ else _] => destruct b; cbn -[Z.ltb Z.eqb Z.gtb Z.add]
      end; reflexivity.
Qed.

Lemma run_keeps_recycles (ops : list (op A)) (c : context A) :
  Forall (λ o, ¬ is_increment o) ops →
  _thread_recycles (run ops c) = _thread_recycles c.
Proof.
  intros Hops; revert c; induction Hops as [|o ops Ho _ IH]; intros c; [done|].
  change (run (o :: ops) c) with (run ops (step o c)).
  by rewrite IH, step_keeps_recycles.
Qed.

(** X4.  Slots do not disturb each other: whatever [get] and [set] calls
    are made on one slot, the context another slot sees, and so everything
    its own [get] returns, is the same as before. *)
Theorem slots_are_independent (ops : list (op A)) (p : two_slots A B) :
  Forall (λ o, ¬ is_increment o) ops →
  second_view (on_first (run ops) p) = second_view p ∧
  ∀ d : option B,
    fst (get d (second_view (on_first (run ops) p))) = fst (get d (second_view p)).
Proof.
  intros Hops.
  assert (Hview : second_view (on_first (run ops) p) = second_view p).
  { unfold second_view, on_first. cbn. by rewrite run_keeps_recycles. }
  split; [exact Hview|]. intros d. by rewrite Hview.
Qed.

End TwoSlots.

(** X4, witness: the second slot holds a value; the first slot is read and
    set; the second still returns its value. *)
Lemma slots_are_independent_witness :
  let p := RecyclableContextVar.mk_two_slots
             (ContextVar.mk None (Some 0))
             (ContextVar.mk (Some 0) None) (ContextVar.new None)
             (ContextVar.mk (Some 0) (Some 1)) (ContextVar.mk None (Some "app-7")) in
  let ops := [RecyclableContextVar.OpGet (Some 0); RecyclableContextVar.OpSet 5] in
  Forall (λ o, ¬ RecyclableContextVar.is_increment o) ops ∧
  RecyclableContextVar.second_view (RecyclableContextVar.on_first (RecyclableContextVar.run ops) p)
  = RecyclableContextVar.second_view p ∧
  fst (RecyclableContextVar.get None
         (RecyclableContextVar.second_view
            (RecyclableContextVar.on_first (RecyclableContextVar.run ops) p)))
  = Ok "app-7".
Proof.
  intros p ops.
  assert (Hops : Forall (λ o, ¬ RecyclableContextVar.is_increment o) ops).
  { repeat constructor; by intros []. }
  destruct (slots_are_independent ops p Hops) as [Hview Hget].
  split; [exact Hops|]. split; [exact Hview|].
  rewrite (Hget None). reflexivity.
Defined.

(** ** More on the admission controller *)

Section LimiterExtras.
Import redis_client.
Implicit Types (self : RateLimit.t) (a : RateLimit.attributes) (w : world).

Lemma hashes_put_hash_ne (key k : string) (h : gmap string Z) (r : redis) :
  key ≠ k → hashes (put_hash key h r) !! k = hashes r !! k.
Proof.
  intros Hne. unfold put_hash. destruct (decide (h = ∅)); cbn [hashes].
  - by rewrite lookup_delete_ne.
  - by rewrite lookup_insert_ne.
Qed.

(** The second half of [flush_cache] writes to the hash of the limiter and
    to nothing else. *)
Lemma flush_active_requests_store a w :
  strings (store (RateLimit.flush_active_requests a w)) = strings (store w) ∧
  ∀ k, RateLimit.active_requests_key a ≠ k →
       hashes (store (RateLimit.flush_active_requests a w)) !! k = hashes (store w) !! k.
Proof.
  unfold RateLimit.flush_active_requests. cbn [exists_].
  destruct (key_exists _ _); cbn [negb]; [|done].
  cbn [hgetall]. rewrite timeout_requests_eq.
  destruct (RateLimit.timed_out_keys _ _ _); [done|].
  unfold hdel. cbn [store emit with_store expire]. split.
  - apply strings_put_hash.
  - intros k Hk. by apply hashes_put_hash_ne.
Qed.

(** Every way [flush_cache] can end on an enabled limiter that has its
    attributes.  It fails only when the reply to [GET] is the error of the
    server for a limit key that holds a hash; [SETEX] replaces such a
    hash. *)
Lemma flush_cache_outcome self a (use_local_value : bool) w :
  let key := RateLimit.active_requests_key a in
  let limit_key := RateLimit.max_active_requests_key a in
  let h := hash_at key (store w) in
  RateLimit.disabled self = false →
  RateLimit.attrs self = Some a →
  let '(r, self', w') := RateLimit.flush_cache self use_local_value w in
  RateLimit.attrs self'
  = Some (RateLimit.with_last_recalculate_time (clock w (tick w)) a) ∧
  (uuid4 w' = uuid4 w ∧ drawn w' = drawn w ∧ clock w' = clock w) ∧
  (∀ k, key ≠ k → use_local_value = false ∨ limit_key ≠ k →
        hashes (store w') !! k = hashes (store w) !! k) ∧
  (∀ k, limit_key ≠ k → strings (store w') !! k = strings (store w) !! k) ∧
  match r with
  | Ok _ =>
      strings (store w') !! limit_key = Some (RateLimit.max_active_requests self') ∧
      RateLimit.max_active_requests self'
      = (if use_local_value then RateLimit.max_active_requests self
         else from_option id (RateLimit.max_active_requests self)
                (strings (store w) !! limit_key)) ∧
      (use_local_value = false ∨ hashes (store w) !! limit_key = None →
       hash_at key (store w')
       = hdel_fields
           (RateLimit.timed_out_keys (clock w) (S (tick w)) (reply_order w (replies w) h))
           h)
  | Raise e =>
      e = ResponseError "WRONGTYPE" ∧ store w' = store w ∧
      RateLimit.max_active_requests self' = RateLimit.max_active_requests self ∧
      use_local_value = false ∧
      is_Some (hashes (store w) !! limit_key)
  end.
Proof.
  intros key limit_key h Hd Ha. unfold RateLimit.flush_cache. rewrite Hd.
  cbn [time_time]. rewrite Ha.
  assert (Hpublish :
    ∀ w1, store w1 = store w → clock w1 = clock w → tick w1 = S (tick w) →
          uuid4 w1 = uuid4 w → drawn w1 = drawn w →
          reply_order w1 = reply_order w → replies w1 = replies w →
      let w' := RateLimit.flush_active_requests a
                  (setex limit_key one_day (RateLimit.max_active_requests self) w1) in
      (uuid4 w' = uuid4 w ∧ drawn w' = drawn w ∧ clock w' = clock w) ∧
      (∀ k, key ≠ k → hashes (store w) !! limit_key = None ∨ limit_key ≠ k →
            hashes (store w') !! k = hashes (store w) !! k) ∧
      (∀ k, limit_key ≠ k → strings (store w') !! k = strings (store w) !! k) ∧
      strings (store w') !! limit_key = Some (RateLimit.max_active_requests self) ∧
      (hashes (store w) !! limit_key = None →
       hash_at key (store w')
       = hdel_fields
           (RateLimit.timed_out_keys (clock w) (S (tick w)) (reply_order w (replies w) h))
           h)).
  { intros w1 Hs Hc Ht Hu Hdr Hro Hrs w'.
    destruct (flush_active_requests_frame a
                (setex limit_key one_day (RateLimit.max_active_requests self) w1))
      as (Hu' & Hdr' & Hc').
    destruct (flush_active_requests_store a
                (setex limit_key one_day (RateLimit.max_active_requests self) w1))
      as (Hstr & Hhs).
    fold w' in Hu', Hdr', Hc', Hstr, Hhs.
    cbn [setex emit with_store store strings hashes uuid4 drawn clock] in *.
    split; [by rewrite Hu', Hdr', Hc', Hu, Hdr, Hc|].
    split.
    { intros k Hk [Hnone|Hne]; rewrite Hhs, Hs by done.
      - by rewrite delete_id.
      - by rewrite lookup_delete_ne. }
    split; [intros k Hk; by rewrite Hstr, lookup_insert_ne, Hs|].
    split; [by rewrite Hstr, lookup_insert_eq|].
    intros Hnone. unfold w', key. rewrite flush_active_requests_hash.
    rewrite setex_hash_at by (by rewrite Hs).
    cbn [setex emit with_store store strings hashes uuid4 drawn clock tick
           reply_order replies].
    unfold h, key, hash_at. by rewrite Hs, Hc, Ht, Hro, Hrs. }
  destruct use_local_value.
  - rewrite flush_active_requests_touch.
    split; [reflexivity|].
    match goal with |- context [setex _ _ _ ?w1] =>
      destruct (Hpublish w1 eq_refl eq_refl eq_refl eq_refl eq_refl eq_refl eq_refl)
        as (Hf & Hhs & Hstr & Hlim & Hh) end.
    split; [exact Hf|].
    split; [intros k Hk [|Hne]; [done | apply Hhs; [done | by right]]|].
    split; [exact Hstr|].
    split; [exact Hlim|]. split; [reflexivity|]. intros [|Hnone]; [done | by apply Hh].
  - cbn [exists_ RateLimit.max_active_requests_key RateLimit.with_last_recalculate_time
           store emit].
    fold limit_key. unfold key_exists.
    destruct (hashes (store w) !! limit_key) as [hh|] eqn:Hhh.
    + rewrite (bool_decide_eq_true_2 (is_Some (Some hh))) by by eexists.
      rewrite orb_true_r. cbn [negb].
      cbn [get store emit]. rewrite Hhh.
      repeat split; first [done | by eexists].
    + rewrite (bool_decide_eq_false_2 (is_Some None)) by (intros [? ?]; discriminate).
      rewrite orb_false_r.
      destruct (strings (store w) !! limit_key) as [v|] eqn:Hv.
      * rewrite bool_decide_eq_true_2 by by eexists. cbn [negb].
        cbn [get store emit]. rewrite Hhh, Hv.
        rewrite (flush_active_requests_touch (clock w (tick w)) a).
        split; [reflexivity|].
        match goal with |- context [RateLimit.flush_active_requests a ?w1] =>
          destruct (flush_active_requests_frame a w1) as (Hu' & Hdr' & Hc');
          destruct (flush_active_requests_store a w1) as (Hstr & Hhs);
          pose proof (flush_active_requests_hash a w1) as Hh end.
        cbn [expire emit store strings hashes uuid4 drawn clock tick
               reply_order replies] in *.
        split; [by rewrite Hu', Hdr', Hc'|].
        split; [intros k Hk _; by rewrite Hhs|].
        split; [intros k Hk; by rewrite Hstr|].
        split; [by rewrite Hstr|]. split; [reflexivity|]. intros _. exact Hh.
      * rewrite bool_decide_eq_false_2 by (intros [? ?]; discriminate). cbn [negb].
        rewrite (flush_active_requests_touch (clock w (tick w)) a).
        split; [reflexivity|].
        match goal with |- context [setex _ _ _ ?w1] =>
          destruct (Hpublish w1 eq_refl eq_refl eq_refl eq_refl eq_refl eq_refl eq_refl)
            as (Hf & Hhs & Hstr & Hlim & Hh) end.
        split; [exact Hf|].
        split; [intros k Hk _; apply Hhs; [done | by left]|].
        split; [exact Hstr|].
        split; [exact Hlim|]. split; [reflexivity|]. intros _. by apply Hh.
Qed.

(** Every way [enter] can end on an enabled limiter that has its
    attributes. *)
Lemma enter_outcome self a (request_id : option string) w :
  let key := RateLimit.active_requests_key a in
  let limit_key := RateLimit.max_active_requests_key a in
  RateLimit.disabled self = false →
  RateLimit.attrs self = Some a →
  let '(r, self', w') := RateLimit.enter self request_id w in
  (∀ k, key ≠ k → hashes (store w') !! k = hashes (store w) !! k) ∧
  (∀ k, limit_key ≠ k → strings (store w') !! k = strings (store w) !! k) ∧
  (∃ a', RateLimit.attrs self' = Some a' ∧
         RateLimit.client_id a' = RateLimit.client_id a ∧
         RateLimit.active_requests_key a' = key ∧
         RateLimit.max_active_requests_key a' = limit_key) ∧
  match r with
  | Ok id =>
      id = chosen_id request_id w ∧
      RateLimit.max_active_requests self' = limit_at_check self a w ∧
      count_at_check a w < limit_at_check self a w ∧
      ∃ t, hash_at key (store w') = <[id := t]> (hash_at_check a w)
  | Raise (AppInvokeQuotaExceededError description) =>
      description
      = RateLimit.too_many_requests (RateLimit.client_id a) (limit_at_check self a w) ∧
      RateLimit.max_active_requests self' = limit_at_check self a w ∧
      limit_at_check self a w ≤ count_at_check a w ∧
      hash_at key (store w') = hash_at_check a w
  | Raise (ResponseError message) =>
      message = "WRONGTYPE" ∧
      flush_due a w = true ∧
      store w' = store w ∧
      RateLimit.max_active_requests self' = RateLimit.max_active_requests self ∧
      is_Some (hashes (store w) !! limit_key)
  | Raise _ => False
  end.
Proof.
  intros key limit_key Hd Ha.
  unfold RateLimit.enter. rewrite Hd. cbn [time_time]. rewrite Ha.
  unfold limit_at_check, count_at_check, hash_at_check, flush_due, chosen_id.
  destruct (RateLimit.elapsed_more_than _ _ _) eqn:Hdue.
  - match goal with |- context [RateLimit.flush_cache self false ?x] => set (w1 := x) end.
    pose proof (flush_cache_outcome self a false w1 Hd Ha) as Hout.
    destruct (RateLimit.flush_cache self false w1) as [[r s'] w'].
    cbv zeta in Hout. destruct Hout as (Ha' & (Hu & Hdr & _) & Hhs' & Hstr & Hr).
    change (store w1) with (store w) in *. change (clock w1) with (clock w) in *.
    change (tick w1) with (S (tick w)) in *.
    change (uuid4 w1) with (uuid4 w) in *. change (drawn w1) with (drawn w) in *.
    change (reply_order w1) with (reply_order w) in *.
    change (replies w1) with (replies w) in *.
    assert (Hhs : ∀ k, RateLimit.active_requests_key a ≠ k →
                       hashes (store w') !! k = hashes (store w) !! k).
    { intros k Hk. apply Hhs'; [done | by left]. }
    clear Hhs'.
    destruct r as [[]|e].
    + destruct Hr as (Hlim & Hmax & Hh). specialize (Hh (or_introl eq_refl)). rewrite Ha'.
      fold key limit_key in Hh, Hmax, Hlim, Hhs, Hstr.
      destruct (RateLimit.falsy request_id);
        cbn [RateLimit.gen_request_key hlen store emit RateLimit.active_requests_key
               RateLimit.with_last_recalculate_time RateLimit.client_id
               RateLimit.max_active_requests_key from_option id];
        fold key limit_key; rewrite Hh, Hmax;
        (destruct (Z.geb_spec (Z.of_nat (size (hdel_fields
                     (RateLimit.timed_out_keys (clock w) (S (S (tick w)))
                        (reply_order w (replies w) (hash_at key (store w))))
                     (hash_at key (store w)))))
                   (from_option id (RateLimit.max_active_requests self)
                      (strings (store w) !! limit_key))) as [Hfull|Hroom];
         [ cbn [store]; split; [exact Hhs|]; split; [exact Hstr|];
           split; [by eexists|]; repeat split; [done | lia | done]
         | cbn [time_time hset store emit with_store clock tick];
           split; [intros k Hk; by rewrite hashes_put_hash_ne, Hhs|];
           split; [intros k Hk; by rewrite strings_put_hash, Hstr|];
           split; [by eexists|];
           rewrite ?Hu, ?Hdr; repeat split; [done | lia |];
           eexists; rewrite hash_at_put_hash, Hh; reflexivity ]).
    + destruct Hr as (-> & Hs & Hmax & _ & Hsome).
      split; [exact Hhs|]. split; [exact Hstr|]. split; [by eexists|]. done.
  - rewrite Ha.
    destruct (RateLimit.falsy request_id);
      cbn [RateLimit.gen_request_key hlen store emit from_option id]; fold key;
      (destruct (Z.geb_spec (Z.of_nat (size (hash_at key (store w))))
                 (RateLimit.max_active_requests self)) as [Hfull|Hroom];
       [ cbn [store]; split; [done|]; split; [done|]; split; [by eexists|];
         repeat split; first [done | lia]
       | cbn [time_time hset store emit with_store clock tick];
         split; [intros k Hk; by rewrite hashes_put_hash_ne|];
         split; [intros k Hk; by rewrite strings_put_hash|];
         split; [by eexists|];
         split; [done|]; split; [done|]; split; [lia|];
         eexists; rewrite hash_at_put_hash; reflexivity ]).
Qed.

End LimiterExtras.

(** ** The names of the keys *)

Section KeyNames.

Lemma string_app_nil (s : string) : "" +:+ s = s.
Proof. reflexivity. Qed.

Lemma string_app_cons (c : Ascii.ascii) (s t : string) :
  String c s +:+ t = String c (s +:+ t).
Proof. reflexivity. Qed.

Lemma string_length_app (s t : string) :
  String.length (s +:+ t) = (String.length s + String.length t)%nat.
Proof.
  induction s as [|c s IH]; [done|].
  rewrite string_app_cons. cbn [String.length]. by rewrite IH.
Qed.

(** If two strings that end in [s] and in [t] are equal and [s] is not
    longer than [t], then [t] ends in [s]. *)
Lemma string_app_suffix (a b s t : string) :
  a +:+ s = b +:+ t → (String.length s ≤ String.length t)%nat → ∃ m, t = m +:+ s.
Proof.
  revert b; induction a as [|c a IH]; intros b Heq Hlen.
  - rewrite string_app_nil in Heq. subst s. rewrite string_length_app in Hlen.
    destruct b as [|c b]; [by exists "" | cbn [String.length] in Hlen; lia].
  - destruct b as [|c' b].
    + rewrite string_app_nil in Heq. by exists (String c a).
    + rewrite !string_app_cons in Heq. injection Heq as _ Heq. by apply (IH b).
Qed.

Lemma string_app_inj_r (a b s : string) : a +:+ s = b +:+ s → a = b.
Proof.
  revert b; induction a as [|c a IH]; intros b Heq.
  - destruct b as [|c b]; [done|].
    apply (f_equal String.length) in Heq.
    rewrite string_app_nil, string_app_cons in Heq. cbn [String.length] in Heq.
    rewrite string_length_app in Heq. lia.
  - destruct b as [|c' b].
    + apply (f_equal String.length) in Heq.
      rewrite string_app_nil, string_app_cons in Heq. cbn [String.length] in Heq.
      rewrite string_length_app in Heq. lia.
    + rewrite !string_app_cons in Heq. injection Heq as -> Heq. f_equal. by apply IH.
Qed.

Lemma active_key_inj (c c' : string) :
  RateLimit._ACTIVE_REQUESTS_KEY c = RateLimit._ACTIVE_REQUESTS_KEY c' → c = c'.
Proof.
  unfold RateLimit._ACTIVE_REQUESTS_KEY. intros H.
  apply (String.app_inj "dify:rate_limit:") in H. by apply string_app_inj_r in H.
Qed.

Lemma limit_key_inj (c c' : string) :
  RateLimit._MAX_ACTIVE_REQUESTS_KEY c = RateLimit._MAX_ACTIVE_REQUESTS_KEY c' → c = c'.
Proof.
  unfold RateLimit._MAX_ACTIVE_REQUESTS_KEY. intros H.
  apply (String.app_inj "dify:rate_limit:") in H. by apply string_app_inj_r in H.
Qed.

Lemma active_key_not_limit_key (c c' : string) :
  RateLimit._ACTIVE_REQUESTS_KEY c ≠ RateLimit._MAX_ACTIVE_REQUESTS_KEY c'.
Proof.
  unfold RateLimit._ACTIVE_REQUESTS_KEY, RateLimit._MAX_ACTIVE_REQUESTS_KEY.
  intros H. apply (String.app_inj "dify:rate_limit:") in H.
  apply string_app_suffix in H as [m Hm]; [|cbn [String.length]; lia].
  assert (Hlen : String.length m = 4%nat).
  { apply (f_equal String.length) in Hm. rewrite string_length_app in Hm.
    cbn [String.length] in Hm. lia. }
  destruct m as [|c1 [|c2 [|c3 [|c4 [|c5 m]]]]]; try discriminate Hlen.
  rewrite !string_app_cons, string_app_nil in Hm. discriminate Hm.
Qed.

(** X5.  The keys of different clients are different, and no key that holds
    the hash of one client is the key that holds the limit of another (or
    of the same) client: the two families never meet. *)
Theorem keys_are_namespaced (c c' : string) :
  (RateLimit._ACTIVE_REQUESTS_KEY c = RateLimit._ACTIVE_REQUESTS_KEY c' → c = c') ∧
  (RateLimit._MAX_ACTIVE_REQUESTS_KEY c = RateLimit._MAX_ACTIVE_REQUESTS_KEY c' → c = c') ∧
  RateLimit._ACTIVE_REQUESTS_KEY c ≠ RateLimit._MAX_ACTIVE_REQUESTS_KEY c'.
Proof.
  split; [apply active_key_inj|].
  split; [apply limit_key_inj|].
  unfold RateLimit._ACTIVE_REQUESTS_KEY, RateLimit._MAX_ACTIVE_REQUESTS_KEY.
  intros H. apply (String.app_inj "dify:rate_limit:") in H.
  apply string_app_suffix in H as [m Hm]; [|cbn [String.length]; lia].
  assert (Hlen : String.length m = 4%nat).
  { apply (f_equal String.length) in Hm. rewrite string_length_app in Hm.
    cbn [String.length] in Hm. lia. }
  destruct m as [|c1 [|c2 [|c3 [|c4 [|c5 m]]]]]; try discriminate Hlen.
  rewrite !string_app_cons, string_app_nil in Hm. discriminate Hm.
Qed.

End KeyNames.

(** ** Laws of the admission controller *)

Section LimiterLaws.
Import redis_client.
Implicit Types (self : RateLimit.t) (a : RateLimit.attributes) (w : world).

Lemma usable_init self (client_id : string) (limit : Z) w :
  usable (RateLimit.init self client_id limit w).1.2.
Proof.
  unfold RateLimit.init.
  destruct (RateLimit.disabled (RateLimit.mk limit (RateLimit.attrs self))) eqn:Hd.
  - intros Hd'. cbn [fst snd] in Hd'. congruence.
  - cbn [RateLimit.attrs]. destruct (RateLimit.attrs self) as [a|] eqn:Ha.
    + intros _. by eexists.
    + pose proof (flush_cache_outcome
                    (RateLimit.mk limit
                       (Some (RateLimit.mk_attributes client_id
                                (RateLimit._ACTIVE_REQUESTS_KEY client_id)
                                (RateLimit._MAX_ACTIVE_REQUESTS_KEY client_id)
                                RateLimit.neg_inf)))
                    _ true w Hd eq_refl) as Hout.
      destruct (RateLimit.flush_cache _ true w) as [[r s'] w'].
      destruct Hout as (Ha' & _). intros _. cbn [fst snd]. rewrite Ha'. by eexists.
Qed.

Lemma usable_flush_cache self (use_local_value : bool) w :
  usable self → usable (RateLimit.flush_cache self use_local_value w).1.2.
Proof.
  intros Hu. destruct (RateLimit.disabled self) eqn:Hd.
  - unfold RateLimit.flush_cache. by rewrite Hd.
  - destruct (Hu Hd) as [a Ha].
    pose proof (flush_cache_outcome self a use_local_value w Hd Ha) as Hout.
    destruct (RateLimit.flush_cache self use_local_value w) as [[r s'] w'].
    destruct Hout as (Ha' & _). intros _. cbn [fst snd]. rewrite Ha'. by eexists.
Qed.

Lemma usable_enter self (request_id : option string) w :
  usable self → usable (RateLimit.enter self request_id w).1.2.
Proof.
  intros Hu. destruct (RateLimit.disabled self) eqn:Hd.
  - unfold RateLimit.enter. by rewrite Hd.
  - destruct (Hu Hd) as [a Ha].
    pose proof (enter_outcome self a request_id w Hd Ha) as Hout.
    destruct (RateLimit.enter self request_id w) as [[r s'] w'].
    destruct Hout as (_ & _ & (a' & Ha' & _) & _). intros _. cbn [fst snd].
    rewrite Ha'. by eexists.
Qed.

(** X6.  An enabled limiter always has its attributes: the constructor
    returns such an object for every client, limit and registry, and
    [enter] and [flush_cache] keep it so, also when a flush takes a limit
    from the store. *)
Theorem enabled_limiter_has_attributes
    self (client_id : string) (limit : Z) (registry : gmap string RateLimit.t)
    (request_id : option string) (use_local_value : bool) w :
  usable (RateLimit.construct client_id limit registry w).1.1.2 ∧
  (usable self → usable (RateLimit.enter self request_id w).1.2) ∧
  (usable self → usable (RateLimit.flush_cache self use_local_value w).1.2).
Proof.
  split; [|split].
  - unfold RateLimit.construct.
    pose proof (usable_init
                  (match registry !! client_id with
                   | Some i => i
                   | None => RateLimit.mk 0 None
                   end) client_id limit w) as Hu.
    by destruct (RateLimit.init _ client_id limit w) as [[r i] w'].
  - apply usable_enter.
  - apply usable_flush_cache.
Qed.



(** X8.  The admission rule.  On an enabled limiter whose limit key holds
    no hash, [enter] admits the request exactly when the count at the check
    is below the limit at the check; when a flush is due, these are the
    number of entries the flush leaves and the limit stored under the limit
    key (the local one if none is stored).  The flush examines the entries
    in the order of the reply to [HGETALL], with one reading of the clock
    for each, so the count may depend on that order.  A refusal names the
    client and that limit. *)
Theorem admission_rule self a (request_id : option string) w :
  RateLimit.disabled self = false →
  RateLimit.attrs self = Some a →
  hashes (store w) !! RateLimit.max_active_requests_key a = None →
  (RateLimit.enter self request_id w).1.1
  = if count_at_check a w <? limit_at_check self a w
    then Ok (chosen_id request_id w)
    else Raise (AppInvokeQuotaExceededError
                  (RateLimit.too_many_requests (RateLimit.client_id a)
                     (limit_at_check self a w))).
Proof.
  intros Hd Ha Hty.
  pose proof (enter_outcome self a request_id w Hd Ha) as Hout.
  destruct (RateLimit.enter self request_id w) as [[r s'] w'].
  destruct Hout as (_ & _ & _ & Hr). cbn [fst].
  destruct r as [id|[]]; try done.
  - destruct Hr as (-> & _ & Hlt & _).
    by destruct (Z.ltb_spec (count_at_check a w) (limit_at_check self a w)); [|lia].
  - destruct Hr as (-> & _ & Hle & _).
    by destruct (Z.ltb_spec (count_at_check a w) (limit_at_check self a w)); [lia|].
  - destruct Hr as (_ & _ & _ & _ & [? Hh]). congruence.
Qed.

(** X9.  After [flush_cache] the local limit and the stored limit agree.
    With [use_local_value], or when nothing is stored, the local limit is
    written to the store; otherwise the stored limit replaces the local
    one. *)
Theorem flush_aligns_limits self a (use_local_value : bool) w :
  RateLimit.disabled self = false →
  RateLimit.attrs self = Some a →
  hashes (store w) !! RateLimit.max_active_requests_key a = None →
  let '(r, self', w') := RateLimit.flush_cache self use_local_value w in
  r = Ok tt ∧
  strings (store w') !! RateLimit.max_active_requests_key a
  = Some (RateLimit.max_active_requests self') ∧
  RateLimit.max_active_requests self'
  = (if use_local_value then RateLimit.max_active_requests self
     else from_option id (RateLimit.max_active_requests self)
            (strings (store w) !! RateLimit.max_active_requests_key a)).
Proof.
  intros Hd Ha Hty.
  pose proof (flush_cache_outcome self a use_local_value w Hd Ha) as Hout.
  destruct (RateLimit.flush_cache self use_local_value w) as [[r s'] w'].
  destruct Hout as (_ & _ & _ & _ & Hr).
  destruct r as [[]|e].
  - destruct Hr as (Hlim & Hmax & _). done.
  - destruct Hr as (_ & _ & _ & _ & [? Hh]). congruence.
Qed.

Lemma hash_at_check_size a w :
  (size (hash_at_check a w)
   ≤ size (hash_at (RateLimit.active_requests_key a) (store w)))%nat.
Proof.
  unfold hash_at_check. destruct (flush_due a w); [|done].
  apply map_subseteq_size, map_filter_subseteq.
Qed.

(** X10.  [enter] never leaves more entries in the hash than the larger of
    the number it found and the limit in force when it returns.  So a hash
    within the limit stays within the limit under calls of [enter] that run
    one after the other. *)
Theorem enter_respects_limit self a (request_id : option string) w :
  RateLimit.attrs self = Some a →
  let key := RateLimit.active_requests_key a in
  let '(_, self', w') := RateLimit.enter self request_id w in
  Z.of_nat (size (hash_at key (store w')))
  ≤ Z.max (Z.of_nat (size (hash_at key (store w)))) (RateLimit.max_active_requests self').
Proof.
  intros Ha key. destruct (RateLimit.disabled self) eqn:Hd.
  - unfold RateLimit.enter. rewrite Hd. lia.
  - pose proof (enter_outcome self a request_id w Hd Ha) as Hout.
    destruct (RateLimit.enter self request_id w) as [[r s'] w'].
    destruct Hout as (_ & _ & _ & Hr).
    pose proof (hash_at_check_size a w) as Hsz. fold key in Hsz.
    destruct r as [id|[]]; try done.
    + destruct Hr as (_ & Hmax & Hlt & t & Hh). fold key in Hh. rewrite Hh, Hmax.
      unfold count_at_check in Hlt.
      pose proof (map_size_insert id t (hash_at_check a w)) as Hins.
      destruct (hash_at_check a w !! id); cbn in Hins; rewrite Hins; lia.
    + destruct Hr as (_ & _ & _ & Hh). fold key in Hh. rewrite Hh. lia.
    + destruct Hr as (_ & _ & -> & _). lia.
Qed.

Lemma put_hash_twice (key : string) (h : gmap string Z) (r : redis) :
  put_hash key h (put_hash key h r) = put_hash key h r.
Proof.
  unfold put_hash. destruct (decide (h = ∅)); cbn [strings hashes]; f_equal.
  - apply delete_delete_eq.
  - apply insert_insert_eq.
Qed.

Lemma exit_store self (released : string) w :
  strings (store (RateLimit.exit self released w).2) = strings (store w) ∧
  ∀ a k, RateLimit.attrs self = Some a → RateLimit.active_requests_key a ≠ k →
         hashes (store (RateLimit.exit self released w).2) !! k = hashes (store w) !! k.
Proof.
  unfold RateLimit.exit. destruct (bool_decide _); [done|].
  destruct (RateLimit.attrs self) as [a|]; [|done].
  cbn [snd hdel emit with_store store]. split; [apply strings_put_hash|].
  intros a' k [= <-] Hk. by apply hashes_put_hash_ne.
Qed.

(** X11.  A limiter touches the keys of its own client only: [enter],
    [exit] and [flush_cache] leave the hash and the stored limit of every
    other client as they are. *)
Theorem other_clients_untouched
    self a (other : string) (request_id : option string) (released : string)
    (use_local_value : bool) w :
  RateLimit.attrs self = Some a →
  keys_of_client a →
  other ≠ RateLimit.client_id a →
  untouched_for other w (RateLimit.enter self request_id w).2 ∧
  untouched_for other w (RateLimit.exit self released w).2 ∧
  untouched_for other w (RateLimit.flush_cache self use_local_value w).2.
Proof.
  intros Ha [Hk Hl] Hother.
  assert (Hkey : RateLimit.active_requests_key a ≠ RateLimit._ACTIVE_REQUESTS_KEY other).
  { rewrite Hk. intros H. by apply active_key_inj in H. }
  assert (Hlim : RateLimit.max_active_requests_key a
                 ≠ RateLimit._MAX_ACTIVE_REQUESTS_KEY other).
  { rewrite Hl. intros H. by apply limit_key_inj in H. }
  unfold untouched_for, hash_at. split; [|split].
  - destruct (RateLimit.disabled self) eqn:Hd.
    + unfold RateLimit.enter. by rewrite Hd.
    + pose proof (enter_outcome self a request_id w Hd Ha) as Hout.
      destruct (RateLimit.enter self request_id w) as [[r s'] w'].
      destruct Hout as (Hhs & Hstr & _). cbn [snd].
      by rewrite (Hhs _ Hkey), (Hstr _ Hlim).
  - destruct (exit_store self released w) as [Hstr Hhs].
    by rewrite Hstr, (Hhs a _ Ha Hkey).
  - destruct (RateLimit.disabled self) eqn:Hd.
    + unfold RateLimit.flush_cache. by rewrite Hd.
    + pose proof (flush_cache_outcome self a use_local_value w Hd Ha) as Hout.
      destruct (RateLimit.flush_cache self use_local_value w) as [[r s'] w'].
      destruct Hout as (_ & _ & Hhs & Hstr & _). cbn [snd].
      assert (Hx : RateLimit.max_active_requests_key a
                   ≠ RateLimit._ACTIVE_REQUESTS_KEY other).
      { rewrite Hl. intros H. by apply eq_sym, active_key_not_limit_key in H. }
      by rewrite (Hhs _ Hkey (or_intror Hx)), (Hstr _ Hlim).
Qed.

(** X12.  [exit] of an id other than the reserved one succeeds whether or
    not the id is registered, removes that entry and no other, and a second
    [exit] of the same id changes nothing in the store. *)
Theorem exit_removes_one_ticket self a (released : string) w :
  RateLimit.attrs self = Some a →
  released ≠ RateLimit._UNLIMITED_REQUEST_ID →
  let key := RateLimit.active_requests_key a in
  let '(r, w') := RateLimit.exit self released w in
  r = Ok tt ∧
  hash_at key (store w') !! released = None ∧
  (∀ other : string, other ≠ released →
     hash_at key (store w') !! other = hash_at key (store w) !! other) ∧
  store (RateLimit.exit self released w').2 = store w'.
Proof.
  intros Ha Hne key.
  rewrite (exit_registered self a released w Ha Hne).
  rewrite (exit_registered self a released _ Ha Hne).
  cbn [snd store]. fold key. rewrite !hash_at_put_hash.
  split; [done|]. split; [apply lookup_delete_eq|].
  split; [intros other Ho; by apply lookup_delete_ne|].
  rewrite delete_delete_eq. apply put_hash_twice.
Qed.

(** X13.  A round trip.  When [enter] admits a request under an id that
    the hash does not hold, [exit] of the returned id puts the hash back as
    the check found it (as the flush left it, if [enter] ran one). *)
Theorem enter_then_exit_restores_hash self a (request_id : option string) w :
  RateLimit.disabled self = false →
  RateLimit.attrs self = Some a →
  hashes (store w) !! RateLimit.max_active_requests_key a = None →
  count_at_check a w < limit_at_check self a w →
  chosen_id request_id w ≠ RateLimit._UNLIMITED_REQUEST_ID →
  hash_at_check a w !! chosen_id request_id w = None →
  let key := RateLimit.active_requests_key a in
  let '(r, self', w1) := RateLimit.enter self request_id w in
  let '(r2, w2) := RateLimit.exit self' (chosen_id request_id w) w1 in
  r = Ok (chosen_id request_id w) ∧ r2 = Ok tt ∧
  hash_at key (store w2) = hash_at_check a w.
Proof.
  intros Hd Ha Hty Hroom Hne Hfresh key.
  pose proof (enter_outcome self a request_id w Hd Ha) as Hout.
  destruct (RateLimit.enter self request_id w) as [[r s'] w1].
  destruct Hout as (_ & _ & (a' & Ha' & _ & Hk' & _) & Hr).
  destruct r as [id|[]]; try done.
  - destruct Hr as (-> & _ & _ & t & Hh).
    rewrite (exit_registered s' a' _ w1 Ha' Hne). cbn [store].
    rewrite Hk'. fold key. rewrite hash_at_put_hash. fold key in Hh. rewrite Hh.
    split; [done|]. split; [done|]. by rewrite delete_insert_eq, delete_id.
  - destruct Hr as (_ & _ & Hle & _). lia.
  - destruct Hr as (_ & _ & _ & _ & [? Hh]). congruence.
Qed.

(** X14.  An id that is admitted again while it is still registered keeps
    its one entry: the count does not grow, only the time of the entry is
    replaced. *)
Theorem reentering_keeps_count self a (request_id : string) w :
  RateLimit.disabled self = false →
  RateLimit.attrs self = Some a →
  hashes (store w) !! RateLimit.max_active_requests_key a = None →
  count_at_check a w < limit_at_check self a w →
  request_id ≠ "" →
  is_Some (hash_at_check a w !! request_id) →
  let key := RateLimit.active_requests_key a in
  let '(r, _, w') := RateLimit.enter self (Some request_id) w in
  r = Ok request_id ∧
  size (hash_at key (store w')) = size (hash_at_check a w) ∧
  ∀ other : string, other ≠ request_id →
    hash_at key (store w') !! other = hash_at_check a w !! other.
Proof.
  intros Hd Ha Hty Hroom Hne Hin key.
  pose proof (enter_outcome self a (Some request_id) w Hd Ha) as Hout.
  destruct (RateLimit.enter self (Some request_id) w) as [[r s'] w'].
  destruct Hout as (_ & _ & _ & Hr).
  assert (Hid : chosen_id (Some request_id) w = request_id).
  { unfold chosen_id. cbn [RateLimit.falsy]. by rewrite bool_decide_eq_false_2. }
  destruct r as [id|[]]; try done.
  - destruct Hr as (-> & _ & _ & t & Hh). fold key in Hh. rewrite Hh, Hid.
    split; [done|]. split; [by apply map_size_insert_Some|].
    intros other Ho. by rewrite lookup_insert_ne.
  - destruct Hr as (_ & _ & Hle & _). lia.
  - destruct Hr as (_ & _ & _ & _ & [? Hh]). congruence.
Qed.

(** X15.  The reserved id is not refused as a request id.  On an enabled
    limiter with room, [enter] registers it like any other id, and [exit]
    of it returns at once and leaves the store as it is: the entry is
    still in the hash afterwards. *)
Theorem reserved_id_is_never_released self a w :
  RateLimit.disabled self = false →
  RateLimit.attrs self = Some a →
  hashes (store w) !! RateLimit.max_active_requests_key a = None →
  count_at_check a w < limit_at_check self a w →
  let key := RateLimit.active_requests_key a in
  let '(r, self', w1) :=
    RateLimit.enter self (Some RateLimit._UNLIMITED_REQUEST_ID) w in
  let '(r2, w2) := RateLimit.exit self' RateLimit._UNLIMITED_REQUEST_ID w1 in
  r = Ok RateLimit._UNLIMITED_REQUEST_ID ∧ r2 = Ok tt ∧
  store w2 = store w1 ∧
  is_Some (hash_at key (store w2) !! RateLimit._UNLIMITED_REQUEST_ID).
Proof.
  intros Hd Ha Hty Hroom key.
  pose proof (enter_outcome self a (Some RateLimit._UNLIMITED_REQUEST_ID) w Hd Ha) as Hout.
  destruct (RateLimit.enter self (Some RateLimit._UNLIMITED_REQUEST_ID) w) as [[r s'] w1].
  destruct Hout as (_ & _ & _ & Hr).
  destruct r as [id|[]]; try done.
  - destruct Hr as (-> & _ & _ & t & Hh). fold key in Hh.
    change (chosen_id (Some RateLimit._UNLIMITED_REQUEST_ID) w)
      with RateLimit._UNLIMITED_REQUEST_ID in *.
    unfold RateLimit.exit. rewrite bool_decide_eq_true_2 by done.
    cbn [emit store]. split; [done|]. split; [done|]. split; [done|].
    rewrite Hh, lookup_insert_eq. by eexists.
  - destruct Hr as (_ & _ & Hle & _). lia.
  - destruct Hr as (_ & _ & _ & _ & [? Hh]). congruence.
Qed.

End LimiterLaws.

(** ** The constructor *)

Section ConstructorLaws.
Import redis_client.
Implicit Types (a : RateLimit.attributes) (w : world).

(** X16.  The first [RateLimit(client, limit)] of a process with a
    positive limit registers the instance under the client, formats both
    keys for that client, takes the time of the call as the time of the
    last flush, and writes its limit to the store over whatever limit was
    stored there. *)
Theorem first_construction_publishes_limit
    (client : string) (limit : Z) (registry : gmap string RateLimit.t) w :
  registry !! client = None →
  0 < limit →
  let '(r, instance, registry', w') := RateLimit.construct client limit registry w in
  r = Ok tt ∧
  registry' = <[client := instance]> registry ∧
  instance
  = RateLimit.mk limit
      (Some (RateLimit.mk_attributes client
               (RateLimit._ACTIVE_REQUESTS_KEY client)
               (RateLimit._MAX_ACTIVE_REQUESTS_KEY client)
               (RateLimit.seconds (clock w (tick w))))) ∧
  strings (store w') !! RateLimit._MAX_ACTIVE_REQUESTS_KEY client = Some limit.
Proof.
  intros Hnew Hpos. unfold RateLimit.construct. rewrite Hnew.
  unfold RateLimit.init. cbn [RateLimit.attrs].
  assert (Hd : ∀ o, RateLimit.disabled (RateLimit.mk limit o) = false).
  { intros o. unfold RateLimit.disabled. cbn [RateLimit.max_active_requests]. lia. }
  rewrite Hd.
  set (a := RateLimit.mk_attributes _ _ _ RateLimit.neg_inf).
  pose proof (flush_cache_outcome (RateLimit.mk limit (Some a)) a true w
                (Hd _) eq_refl) as Hout.
  destruct (RateLimit.flush_cache (RateLimit.mk limit (Some a)) true w) as [[r s'] w'].
  destruct Hout as (Ha' & _ & _ & _ & Hr).
  destruct r as [[]|e]; [|by destruct Hr as (_ & _ & _ & ? & _)].
  destruct Hr as (Hstored & Hmax & _). cbn [RateLimit.max_active_requests] in Hmax.
  split; [done|]. split; [done|]. split.
  - destruct s' as [m' a']. cbn in Ha', Hmax. by subst.
  - rewrite <- Hmax. exact Hstored.
Qed.

(** X17.  A later [RateLimit(client, limit)] on a client whose instance
    is initialised returns that instance, sends nothing to the store and
    keeps the attributes; the limit it is given is local and lasts until
    the next flush, which reads the stored limit back. *)
Theorem later_construction_limit_is_local
    (client : string) (limit stored : Z) (registry : gmap string RateLimit.t)
    (known : RateLimit.t) a w :
  registry !! client = Some known →
  RateLimit.attrs known = Some a →
  0 < limit →
  strings (store w) !! RateLimit.max_active_requests_key a = Some stored →
  hashes (store w) !! RateLimit.max_active_requests_key a = None →
  let '(r, instance, registry', w') := RateLimit.construct client limit registry w in
  r = Ok tt ∧ w' = w ∧
  registry' = <[client := instance]> registry ∧
  instance = RateLimit.mk limit (Some a) ∧
  RateLimit.max_active_requests (RateLimit.flush_cache instance false w').1.2 = stored.
Proof.
  intros Hknown Ha Hpos Hstored Hty. unfold RateLimit.construct. rewrite Hknown.
  unfold RateLimit.init. rewrite Ha.
  assert (Hd : RateLimit.disabled (RateLimit.mk limit (Some a)) = false).
  { unfold RateLimit.disabled. cbn [RateLimit.max_active_requests]. lia. }
  rewrite Hd. cbn [RateLimit.attrs].
  repeat split.
  pose proof (flush_cache_outcome (RateLimit.mk limit (Some a)) a false w Hd eq_refl)
    as Hout.
  destruct (RateLimit.flush_cache (RateLimit.mk limit (Some a)) false w) as [[r s'] w'].
  destruct Hout as (_ & _ & _ & _ & Hr). cbn [fst snd].
  destruct r as [[]|e].
  - destruct Hr as (_ & Hmax & _). by rewrite Hmax, Hstored.
  - destruct Hr as (_ & _ & _ & _ & [? Hh]). congruence.
Qed.

End ConstructorLaws.

(** ** Streams through the wrapper *)

Section StreamLaws.
Import RateLimitGenerator.
Implicit Types (w : world) (vs : list string).

Lemma exit_after_emit (limiter : RateLimit.t) (rid : string) (e : event) w :
  store (RateLimit.exit limiter rid (emit e w)).2 = store (RateLimit.exit limiter rid w).2.
Proof.
  unfold RateLimit.exit. destruct (bool_decide _); [done|].
  by destruct (RateLimit.attrs limiter).
Qed.

Lemma exit_is_ok (limiter : RateLimit.t) (rid : string) w :
  rid = RateLimit._UNLIMITED_REQUEST_ID ∨ is_Some (RateLimit.attrs limiter) →
  (RateLimit.exit limiter rid w).1 = Ok tt ∧
  filter is_exit_call (trace (RateLimit.exit limiter rid w).2)
  = filter is_exit_call (trace w) ++ [ExitCall rid].
Proof.
  intros Hrel. unfold RateLimit.exit.
  destruct (bool_decide (rid = RateLimit._UNLIMITED_REQUEST_ID)) eqn:Hs.
  - cbn [fst snd emit trace]. split; [done|]. by rewrite filter_app.
  - destruct Hrel as [->|[a Ha]]; [by rewrite bool_decide_eq_true_2 in Hs|].
    rewrite Ha. cbn [fst snd redis_client.hdel emit with_store trace]. split; [done|].
    by rewrite !filter_app, app_nil_r.
Qed.

Lemma iterate_to_the_end (limiter : RateLimit.t) (has_close : bool) (rid : string) vs :
  rid = RateLimit._UNLIMITED_REQUEST_ID ∨ is_Some (RateLimit.attrs limiter) →
  ∀ (fuel : nat) w, (length vs < fuel)%nat →
  let '(items, e, self', w') :=
    iterate fuel (mk limiter (Some (Generator.mk (Generator.Yield <$> vs) has_close))
                    rid false) w in
  items = vs ∧ e = Some StopIteration ∧ closed self' = true ∧
  filter is_exit_call (trace w') = filter is_exit_call (trace w) ++ [ExitCall rid] ∧
  store w' = store (RateLimit.exit limiter rid w).2.
Proof.
  intros Hrel. induction vs as [|v vs IH]; intros fuel w Hfuel.
  - destruct fuel as [|fuel]; [cbn in Hfuel; lia|].
    cbn [iterate next closed generator fmap list_fmap Generator.next Generator.body
         rate_limit request_id is_Exception Generator.has_close].
    unfold close. cbn [closed rate_limit request_id generator].
    destruct (exit_is_ok limiter rid (emit GenNext w) Hrel) as (Hok & Htr).
    pose proof (exit_after_emit limiter rid GenNext w) as Hst.
    destruct (RateLimit.exit limiter rid (emit GenNext w)) as [r w1].
    cbn [fst snd] in Hok, Htr, Hst. subst r.
    cbn [emit trace] in Htr. rewrite filter_app in Htr. cbn in Htr.
    rewrite app_nil_r in Htr.
    destruct has_close; cbn [Generator.has_close Generator.close emit closed trace store];
      repeat split; try done.
    rewrite filter_app, Htr. cbn. by rewrite app_nil_r.
  - destruct fuel as [|fuel]; [cbn in Hfuel; lia|].
    cbn [iterate next closed generator fmap list_fmap Generator.next Generator.body
         rate_limit request_id Generator.has_close].
    specialize (IH fuel (emit GenNext w) ltac:(cbn in Hfuel; lia)).
    cbn [fmap] in IH.
    destruct (iterate fuel _ (emit GenNext w)) as [[[items e] self'] w'].
    destruct IH as (-> & -> & Hcl & Htr & Hst).
    rewrite exit_after_emit in Hst. cbn [emit trace] in Htr.
    rewrite filter_app in Htr. cbn in Htr. rewrite app_nil_r in Htr.
    done.
Qed.

Lemma iterate_some_way (limiter : RateLimit.t) (has_close : bool) (rid : string) vs :
  ∀ (fuel : nat) w, (fuel ≤ length vs)%nat →
  let '(items, e, self', w') :=
    iterate fuel (mk limiter (Some (Generator.mk (Generator.Yield <$> vs) has_close))
                    rid false) w in
  items = take fuel vs ∧ e = None ∧
  self' = mk limiter (Some (Generator.mk (Generator.Yield <$> drop fuel vs) has_close))
            rid false ∧
  filter is_exit_call (trace w') = filter is_exit_call (trace w) ∧
  filter is_redis (trace w') = filter is_redis (trace w) ∧
  store w' = store w.
Proof.
  induction vs as [|v vs IH]; intros fuel w Hfuel.
  - destruct fuel as [|fuel]; [|cbn in Hfuel; lia]. by cbn.
  - destruct fuel as [|fuel]; [by cbn|].
    cbn [iterate next closed generator fmap list_fmap Generator.next Generator.body
         rate_limit request_id Generator.has_close].
    specialize (IH fuel (emit GenNext w) ltac:(cbn in Hfuel; lia)).
    cbn [fmap] in IH.
    destruct (iterate fuel _ (emit GenNext w)) as [[[items e] self'] w'].
    destruct IH as (-> & -> & -> & Htr & Htr' & Hst).
    cbn [emit trace] in Htr, Htr'. rewrite filter_app in Htr, Htr'. cbn in Htr, Htr'.
    rewrite app_nil_r in Htr, Htr'. done.
Qed.

(** X18.  A stream read to its end comes through the wrapper unchanged
    and releases the ticket once.  For a generator that yields [vs] and
    then ends, a loop over the wrapper that [generate] builds receives
    exactly [vs] in order and ends on [StopIteration]; by then the wrapper
    is closed, [exit] has been called once, and the store is as one call
    of [exit] for the request id leaves it. *)
Theorem stream_read_to_the_end
    (limiter : RateLimit.t) (has_close : bool) (rid : string) vs (fuel : nat) w :
  rid = RateLimit._UNLIMITED_REQUEST_ID ∨ is_Some (RateLimit.attrs limiter) →
  (length vs < fuel)%nat →
  ∃ wrapper,
    generate limiter
      (Streaming (Some (Generator.mk (Generator.Yield <$> vs) has_close))) rid
    = Wrapped wrapper ∧
    let '(items, e, wrapper', w') := iterate fuel wrapper w in
    items = vs ∧ e = Some StopIteration ∧ closed wrapper' = true ∧
    filter is_exit_call (trace w') = filter is_exit_call (trace w) ++ [ExitCall rid] ∧
    store w' = store (RateLimit.exit limiter rid w).2.
Proof.
  intros Hrel Hfuel. eexists. split; [reflexivity|].
  exact (iterate_to_the_end limiter has_close rid vs Hrel fuel w Hfuel).
Qed.

(** X19.  A consumer that stops early and does not call [close()] keeps
    the ticket.  After [n] items of a stream that has at least [n], the
    wrapper is open, [exit] has not been called, no command has been sent
    and the store is unchanged; the items received are the first [n]. *)
Theorem stream_left_open_keeps_ticket
    (limiter : RateLimit.t) (has_close : bool) (rid : string) vs (n : nat) w :
  (n ≤ length vs)%nat →
  ∃ wrapper,
    generate limiter
      (Streaming (Some (Generator.mk (Generator.Yield <$> vs) has_close))) rid
    = Wrapped wrapper ∧
    let '(items, e, wrapper', w') := iterate n wrapper w in
    items = take n vs ∧ e = None ∧ closed wrapper' = false ∧
    filter is_exit_call (trace w') = filter is_exit_call (trace w) ∧
    filter is_redis (trace w') = filter is_redis (trace w) ∧
    store w' = store w.
Proof.
  intros Hn. eexists. split; [reflexivity|].
  pose proof (iterate_some_way limiter has_close rid vs n w Hn) as H.
  unfold init.
  destruct (iterate n _ w) as [[[items e] wrapper'] w'].
  destruct H as (-> & -> & -> & Htr & Htr' & Hst). done.
Qed.

End StreamLaws.

(** ** Instances on the scenario of client ["appA"] *)

Section ScenarioChecks.

(** In the world left by [RateLimit("appA", 1)] and [enter("r1")], read at
    time [3], no flush is due: the check sees the one entry ["r1"]. *)
Lemma scenario_hash_at_check :
  hash_at_check (Scenario.appA 0) (Scenario.after_first_ticket Z.of_nat)
  = {[ "r1" := 2 ]}.
Proof.
  unfold hash_at_check.
  change (flush_due (Scenario.appA 0) (Scenario.after_first_ticket Z.of_nat)) with false.
  cbv iota. apply (after_first_ticket_hash Z.of_nat).
Qed.

Lemma scenario_count_at_check :
  count_at_check (Scenario.appA 0) (Scenario.after_first_ticket Z.of_nat) = 1.
Proof. unfold count_at_check. by rewrite scenario_hash_at_check, map_size_singleton. Qed.

(** The tickets ["a"] and ["b"] at a call of [enter] at [998]: a flush is
    due, it reads the clock at [999] and scans at [1000] and [1001].  Listed
    second, ["b"] is deleted; listed first, it stays. *)
Lemma boundary_b_second :
  hash_at_check (Scenario.appA 0)
    (Scenario.answering [("a", 900); ("b", 400)]
       (Scenario.world_with Scenario.boundary_tickets (Scenario.moving 998) 0))
  = {[ "a" := 900 ]}.
Proof.
  unfold hash_at_check.
  change (flush_due _ _) with true. cbv iota.
  change (reply_order _ _ _) with [("a", 900); ("b", 400)].
  change (RateLimit.timed_out_keys _ _ _) with ["b"].
  change (store (Scenario.answering ?r ?w)) with (store w).
  rewrite (world_with_hash Scenario.boundary_tickets). unfold Scenario.boundary_tickets.
  rewrite hdel_fields_one, delete_insert_ne by done.
  by rewrite delete_singleton_eq, insert_empty.
Qed.

Lemma boundary_b_first :
  hash_at_check (Scenario.appA 0)
    (Scenario.answering [("b", 400); ("a", 900)]
       (Scenario.world_with Scenario.boundary_tickets (Scenario.moving 998) 0))
  = Scenario.boundary_tickets.
Proof.
  unfold hash_at_check.
  change (flush_due _ _) with true. cbv iota.
  change (reply_order _ _ _) with [("b", 400); ("a", 900)].
  change (RateLimit.timed_out_keys _ _ _) with (@nil string).
  change (store (Scenario.answering ?r ?w)) with (store w).
  rewrite (world_with_hash Scenario.boundary_tickets).
  apply map_filter_id. intros ?? _. apply not_elem_of_nil.
Qed.

Lemma boundary_limit (reply : list (string * Z)) :
  limit_at_check (Scenario.limiter 2) (Scenario.appA 0)
    (Scenario.answering reply
       (Scenario.world_with Scenario.boundary_tickets (Scenario.moving 998) 0))
  = 2.
Proof.
  unfold limit_at_check. change (flush_due _ _) with true. cbv iota.
  change (strings (store _)) with (∅ : gmap string Z). by rewrite lookup_empty.
Qed.

Lemma boundary_room :
  let w := Scenario.answering [("a", 900); ("b", 400)]
             (Scenario.world_with Scenario.boundary_tickets (Scenario.moving 998) 0) in
  count_at_check (Scenario.appA 0) w < limit_at_check (Scenario.limiter 2) (Scenario.appA 0) w.
Proof.
  intros w. unfold count_at_check, w.
  rewrite boundary_b_second, boundary_limit, map_size_singleton. lia.
Qed.

End ScenarioChecks.


(** X8, witness: with limit [2] and the one entry ["r1"], [enter("r2")]
    is admitted.  With limit [2] and the tickets ["a"] and ["b"], at a call
    of [enter] at [998] whose flush scans at [1000] and [1001], the order
    of the reply decides: the request is admitted when ["b"] is listed
    second, and refused when it is listed first. *)
Lemma admission_rule_witness :
  let self := Scenario.limiter 2 in
  let w := Scenario.after_first_ticket Z.of_nat in
  let boundary :=
    Scenario.world_with Scenario.boundary_tickets (Scenario.moving 998) 0 in
  count_at_check (Scenario.appA 0) w = 1 ∧
  limit_at_check self (Scenario.appA 0) w = 2 ∧
  (RateLimit.enter self (Some "r2") w).1.1 = Ok "r2" ∧
  (RateLimit.enter self (Some "r2")
     (Scenario.answering [("a", 900); ("b", 400)] boundary)).1.1 = Ok "r2" ∧
  (RateLimit.enter self (Some "r2")
     (Scenario.answering [("b", 400); ("a", 900)] boundary)).1.1
  = Raise (AppInvokeQuotaExceededError (RateLimit.too_many_requests "appA" 2)).
Proof.
  intros self w boundary.
  split; [exact scenario_count_at_check|]. split; [reflexivity|].
  split; [|split].
  - rewrite (admission_rule self (Scenario.appA 0) (Some "r2") w eq_refl eq_refl
               (proj1 (after_first_ticket_limit_key Z.of_nat))).
    unfold w. rewrite scenario_count_at_check. reflexivity.
  - rewrite (admission_rule self (Scenario.appA 0) (Some "r2")
               (Scenario.answering [("a", 900); ("b", 400)] boundary) eq_refl eq_refl
               (world_with_limit_key Scenario.boundary_tickets (Scenario.moving 998) 0)).
    unfold count_at_check, boundary.
    rewrite boundary_b_second, boundary_limit, map_size_singleton. reflexivity.
  - rewrite (admission_rule self (Scenario.appA 0) (Some "r2")
               (Scenario.answering [("b", 400); ("a", 900)] boundary) eq_refl eq_refl
               (world_with_limit_key Scenario.boundary_tickets (Scenario.moving 998) 0)).
    unfold count_at_check, boundary.
    rewrite boundary_b_first, boundary_limit. unfold Scenario.boundary_tickets.
    rewrite map_size_insert_None by (by apply lookup_singleton_ne).
    rewrite map_size_singleton. reflexivity.
Defined.

(** X9, witness: a flush of the limiter whose local limit is [2] reads the
    stored limit [1] back. *)
Lemma flush_aligns_limits_witness :
  let self := Scenario.limiter 2 in
  let w := Scenario.after_first_ticket Z.of_nat in
  let '(r, self', w') := RateLimit.flush_cache self false w in
  r = Ok tt ∧
  strings (store w') !! RateLimit._MAX_ACTIVE_REQUESTS_KEY "appA"
  = Some (RateLimit.max_active_requests self') ∧
  RateLimit.max_active_requests self' = 1.
Proof.
  intros self w.
  pose proof (flush_aligns_limits self (Scenario.appA 0) false w eq_refl eq_refl
                (proj1 (after_first_ticket_limit_key Z.of_nat))) as H.
  destruct (RateLimit.flush_cache self false w) as [[r self'] w'].
  destruct H as (Hr & Hstored & Hlimit).
  split; [exact Hr|]. split; [exact Hstored|].
  rewrite Hlimit. unfold w.
  change (RateLimit.max_active_requests_key (Scenario.appA 0))
    with (RateLimit._MAX_ACTIVE_REQUESTS_KEY "appA").
  rewrite (proj2 (after_first_ticket_limit_key Z.of_nat)). reflexivity.
Defined.

(** X10, witness: limit [1] and one entry; the hash does not grow. *)
Lemma enter_respects_limit_witness :
  let self := Scenario.limiter 1 in
  let w := Scenario.after_first_ticket Z.of_nat in
  let key := RateLimit.active_requests_key (Scenario.appA 0) in
  RateLimit.attrs self = Some (Scenario.appA 0) ∧
  let '(_, self', w') := RateLimit.enter self (Some "r2") w in
  Z.of_nat (size (redis_client.hash_at key (store w')))
  ≤ Z.max (Z.of_nat (size (redis_client.hash_at key (store w))))
      (RateLimit.max_active_requests self').
Proof.
  intros self w key. split; [reflexivity|].
  exact (enter_respects_limit self (Scenario.appA 0) (Some "r2") w eq_refl).
Defined.

(** X11, witness: the limiter of ["appA"] and the keys of ["appB"]. *)
Lemma other_clients_untouched_witness :
  let self := Scenario.limiter 1 in
  let w := Scenario.after_first_ticket Z.of_nat in
  keys_of_client (Scenario.appA 0) ∧
  untouched_for "appB" w (RateLimit.enter self (Some "r2") w).2 ∧
  untouched_for "appB" w (RateLimit.exit self "r1" w).2 ∧
  untouched_for "appB" w (RateLimit.flush_cache self false w).2.
Proof.
  intros self w.
  assert (Hkeys : keys_of_client (Scenario.appA 0)) by (split; reflexivity).
  split; [exact Hkeys|].
  apply (other_clients_untouched self (Scenario.appA 0) "appB" (Some "r2") "r1" false w
           eq_refl Hkeys).
  discriminate.
Defined.

(** X12, witness: [exit("r1")] on the hash that holds ["r1"]. *)
Lemma exit_removes_one_ticket_witness :
  let self := Scenario.limiter 1 in
  let w := Scenario.after_first_ticket Z.of_nat in
  let key := RateLimit.active_requests_key (Scenario.appA 0) in
  redis_client.hash_at key (store w) !! "r1" = Some 2 ∧
  let '(r, w') := RateLimit.exit self "r1" w in
  r = Ok tt ∧
  redis_client.hash_at key (store w') !! "r1" = None ∧
  (∀ other : string, other ≠ "r1" →
     redis_client.hash_at key (store w') !! other
     = redis_client.hash_at key (store w) !! other) ∧
  store (RateLimit.exit self "r1" w').2 = store w'.
Proof.
  intros self w key. split.
  - unfold key, w.
    change (RateLimit.active_requests_key (Scenario.appA 0))
      with (RateLimit._ACTIVE_REQUESTS_KEY "appA").
    rewrite (after_first_ticket_hash Z.of_nat). apply lookup_singleton_eq.
  - apply (exit_removes_one_ticket self (Scenario.appA 0) "r1" w eq_refl). discriminate.
Defined.

(** X13, witness: limit [2] and the tickets ["a"] and ["b"], at a call of
    [enter] at [998] with ["b"] listed second.  The flush deletes ["b"],
    ["r2"] is admitted beside ["a"] and released again: ["a"] remains. *)
Lemma enter_then_exit_restores_hash_witness :
  let self := Scenario.limiter 2 in
  let w := Scenario.answering [("a", 900); ("b", 400)]
             (Scenario.world_with Scenario.boundary_tickets (Scenario.moving 998) 0) in
  let key := RateLimit.active_requests_key (Scenario.appA 0) in
  hash_at_check (Scenario.appA 0) w = {[ "a" := 900 ]} ∧
  let '(r, self', w1) := RateLimit.enter self (Some "r2") w in
  let '(r2, w2) := RateLimit.exit self' (chosen_id (Some "r2") w) w1 in
  r = Ok (chosen_id (Some "r2") w) ∧ r2 = Ok tt ∧
  redis_client.hash_at key (store w2) = hash_at_check (Scenario.appA 0) w.
Proof.
  intros self w key. split; [exact boundary_b_second|].
  apply (enter_then_exit_restores_hash self (Scenario.appA 0) (Some "r2") w eq_refl eq_refl
           (world_with_limit_key Scenario.boundary_tickets (Scenario.moving 998) 0)
           boundary_room).
  - discriminate.
  - unfold w. rewrite boundary_b_second. by apply lookup_singleton_ne.
Defined.

(** X14, witness: the same state; ["a"] enters a second time. *)
Lemma reentering_keeps_count_witness :
  let self := Scenario.limiter 2 in
  let w := Scenario.answering [("a", 900); ("b", 400)]
             (Scenario.world_with Scenario.boundary_tickets (Scenario.moving 998) 0) in
  let key := RateLimit.active_requests_key (Scenario.appA 0) in
  let '(r, _, w') := RateLimit.enter self (Some "a") w in
  r = Ok "a" ∧
  size (redis_client.hash_at key (store w')) = size (hash_at_check (Scenario.appA 0) w) ∧
  ∀ other : string, other ≠ "a" →
    redis_client.hash_at key (store w') !! other
    = hash_at_check (Scenario.appA 0) w !! other.
Proof.
  intros self w key.
  apply (reentering_keeps_count self (Scenario.appA 0) "a" w eq_refl eq_refl
           (world_with_limit_key Scenario.boundary_tickets (Scenario.moving 998) 0)
           boundary_room).
  - discriminate.
  - unfold w. rewrite boundary_b_second, lookup_singleton_eq. by eexists.
Defined.

(** X15, witness: the same state; the reserved id enters beside ["a"]. *)
Lemma reserved_id_is_never_released_witness :
  let self := Scenario.limiter 2 in
  let w := Scenario.answering [("a", 900); ("b", 400)]
             (Scenario.world_with Scenario.boundary_tickets (Scenario.moving 998) 0) in
  let key := RateLimit.active_requests_key (Scenario.appA 0) in
  let '(r, self', w1) :=
    RateLimit.enter self (Some RateLimit._UNLIMITED_REQUEST_ID) w in
  let '(r2, w2) := RateLimit.exit self' RateLimit._UNLIMITED_REQUEST_ID w1 in
  r = Ok RateLimit._UNLIMITED_REQUEST_ID ∧ r2 = Ok tt ∧
  store w2 = store w1 ∧
  is_Some (redis_client.hash_at key (store w2) !! RateLimit._UNLIMITED_REQUEST_ID).
Proof.
  intros self w key.
  exact (reserved_id_is_never_released self (Scenario.appA 0) w eq_refl eq_refl
           (world_with_limit_key Scenario.boundary_tickets (Scenario.moving 998) 0)
           boundary_room).
Defined.

(** X16, witness: [RateLimit("appA", 1)] in a new process. *)
Lemma first_construction_publishes_limit_witness :
  let w := empty_world Z.of_nat Scenario.ids in
  let '(r, instance, registry', w') := RateLimit.construct "appA" 1 ∅ w in
  r = Ok tt ∧
  registry' = <[ "appA" := instance ]> ∅ ∧
  instance
  = RateLimit.mk 1
      (Some (RateLimit.mk_attributes "appA"
               (RateLimit._ACTIVE_REQUESTS_KEY "appA")
               (RateLimit._MAX_ACTIVE_REQUESTS_KEY "appA")
               (RateLimit.seconds (clock w (tick w))))) ∧
  strings (store w') !! RateLimit._MAX_ACTIVE_REQUESTS_KEY "appA" = Some 1.
Proof.
  intros w.
  apply (first_construction_publishes_limit "appA" 1 ∅ w).
  - apply lookup_empty.
  - lia.
Defined.

(** X17, witness: [RateLimit("appA", 5)] after [RateLimit("appA", 1)]. *)
Lemma later_construction_limit_is_local_witness :
  let w := Scenario.after_first_ticket Z.of_nat in
  let registry : gmap string RateLimit.t := {[ "appA" := Scenario.limiter 1 ]} in
  let '(r, instance, registry', w') := RateLimit.construct "appA" 5 registry w in
  r = Ok tt ∧ w' = w ∧
  registry' = <[ "appA" := instance ]> registry ∧
  instance = RateLimit.mk 5 (Some (Scenario.appA 0)) ∧
  RateLimit.max_active_requests (RateLimit.flush_cache instance false w').1.2 = 1.
Proof.
  intros w registry.
  apply (later_construction_limit_is_local "appA" 5 1 registry (Scenario.limiter 1)
           (Scenario.appA 0) w).
  - apply lookup_singleton_eq.
  - reflexivity.
  - lia.
  - apply (proj2 (after_first_ticket_limit_key Z.of_nat)).
  - apply (proj1 (after_first_ticket_limit_key Z.of_nat)).
Defined.

(** X18, witness: three items read by a loop of four rounds. *)
Lemma stream_read_to_the_end_witness :
  let limiter := Scenario.limiter 1 in
  let w := Scenario.after_first_ticket Z.of_nat in
  ∃ wrapper,
    generate limiter
      (Streaming (Some (Generator.mk (Generator.Yield <$> ["a"; "b"; "c"]) true))) "r1"
    = Wrapped wrapper ∧
    let '(items, e, wrapper', w') := RateLimitGenerator.iterate 4 wrapper w in
    items = ["a"; "b"; "c"] ∧ e = Some StopIteration ∧
    RateLimitGenerator.closed wrapper' = true ∧
    filter is_exit_call (trace w') = filter is_exit_call (trace w) ++ [ExitCall "r1"] ∧
    store w' = store (RateLimit.exit limiter "r1" w).2.
Proof.
  intros limiter w.
  apply (stream_read_to_the_end limiter true "r1" ["a"; "b"; "c"] 4 w).
  - right. by eexists.
  - cbn. lia.
Defined.

(** X19, witness: two of three items read, and no [close()]. *)
Lemma stream_left_open_keeps_ticket_witness :
  let limiter := Scenario.limiter 1 in
  let w := Scenario.after_first_ticket Z.of_nat in
  ∃ wrapper,
    generate limiter
      (Streaming (Some (Generator.mk (Generator.Yield <$> ["a"; "b"; "c"]) true))) "r1"
    = Wrapped wrapper ∧
    let '(items, e, wrapper', w') := RateLimitGenerator.iterate 2 wrapper w in
    items = take 2 ["a"; "b"; "c"] ∧ e = None ∧
    RateLimitGenerator.closed wrapper' = false ∧
    filter is_exit_call (trace w') = filter is_exit_call (trace w) ∧
    filter is_redis (trace w') = filter is_redis (trace w) ∧
    store w' = store w.
Proof.
  intros limiter w.
  apply (stream_left_open_keeps_ticket limiter true "r1" ["a"; "b"; "c"] 2 w).
  cbn. lia.
Defined.
